(** * Plywood catalog: the CSV decoder and the description formatter

    A shallow embedding of [parseCSV] (src/PlywoodSimple.js and
    src/PlywoodSingle.js), of [escapeHTML] and [formatDescriptionToHtml]
    (src/PlywoodSimple.js) and of the visibility filter applied by
    [fetchCsv] / [fetchSheet], with the properties of the specification
    stated over them. *)

From Stdlib Require Import String Ascii List NArith Bool Arith Lia.
Import ListNotations.

(** ** The fragment of JavaScript the two files rely on *)

Module JS.

(** A JavaScript string is a sequence of UTF-16 code units. *)
Definition char := N.
Definition jstring := list char.

(** ASCII literals, for readable examples. *)
Definition lit (s : string) : jstring :=
  map N_of_ascii (list_ascii_of_string s).

Definition LF : char := 10%N.
Definition CR : char := 13%N.
Definition DQUOTE : char := 34%N.
Definition AMP : char := 38%N.
Definition APOS : char := 39%N.
Definition STAR : char := 42%N.
Definition COMMA : char := 44%N.
Definition LT : char := 60%N.
Definition GT : char := 62%N.

Fixpoint str_eqb (a b : jstring) : bool :=
  match a, b with
  | [], [] => true
  | x :: a', y :: b' => N.eqb x y && str_eqb a' b'
  | _, _ => false
  end.

(** [s[j] === c]; an index past the end reads [undefined], which is
    not equal to any one-character string. *)
Definition char_at_is (s : jstring) (j : nat) (c : char) : bool :=
  match nth_error s j with
  | Some x => N.eqb x c
  | None => false
  end.

(** LineTerminator of ECMA-262: what [.] of a regular expression does
    not match. *)
Definition is_line_terminator (c : char) : bool :=
  N.eqb c 10 || N.eqb c 13 || N.eqb c 8232 || N.eqb c 8233.

(** WhiteSpace and LineTerminator of ECMA-262: what
    [String.prototype.trim] strips. *)
Definition is_white_space (c : char) : bool :=
  N.eqb c 9 || N.eqb c 11 || N.eqb c 12 || N.eqb c 32 || N.eqb c 160
  || N.eqb c 5760 || (N.leb 8192 c && N.leb c 8202)
  || N.eqb c 8239 || N.eqb c 8287 || N.eqb c 12288 || N.eqb c 65279.

Definition is_trimmable (c : char) : bool :=
  is_white_space c || is_line_terminator c.

Fixpoint trim_start (s : jstring) : jstring :=
  match s with
  | c :: s' => if is_trimmable c then trim_start s' else s
  | [] => []
  end.

Definition trim_end (s : jstring) : jstring := rev (trim_start (rev s)).

Definition trim (s : jstring) : jstring := trim_end (trim_start s).

(** *** Ordinary objects with string values

    Own properties are kept in the order [OrdinaryOwnPropertyKeys]
    lists them: array-index keys in ascending numeric order, then the
    other string keys in creation order. *)
Definition obj := list (jstring * jstring).

Definition is_digit (c : char) : bool := N.leb 48 c && N.leb c 57.

Fixpoint digits_value (acc : N) (s : jstring) : option N :=
  match s with
  | [] => Some acc
  | c :: s' =>
      if is_digit c then digits_value (acc * 10 + (c - 48))%N s' else None
  end.

(** A key is an array index when it is the canonical decimal form of an
    integer below 2^32 - 1. *)
Definition array_index (k : jstring) : option N :=
  match k with
  | [] => None
  | c :: rest =>
      if N.eqb c 48 && negb (str_eqb rest []) then None
      else match digits_value 0 k with
           | Some n => if N.ltb n 4294967295 then Some n else None
           | None => None
           end
  end.

Definition PROTO : jstring := lit "__proto__".

Fixpoint has_key (o : obj) (k : jstring) : bool :=
  match o with
  | [] => false
  | (k', _) :: o' => str_eqb k' k || has_key o' k
  end.

Fixpoint overwrite (o : obj) (k v : jstring) : obj :=
  match o with
  | [] => []
  | (k', v') :: o' =>
      if str_eqb k' k then (k', v) :: o' else (k', v') :: overwrite o' k v
  end.

(** Create the array-index property [k] (of index [n]) at its place. *)
Fixpoint insert_index (o : obj) (n : N) (k v : jstring) : obj :=
  match o with
  | [] => [(k, v)]
  | (k', v') :: o' =>
      match array_index k' with
      | Some m =>
          if N.ltb m n then (k', v') :: insert_index o' n k v
          else (k, v) :: o
      | None => (k, v) :: o
      end
  end.

(** [o[k] = v] for a string [v], on an object created by [{}]: the
    assignment to [__proto__] reaches the setter of [Object.prototype],
    which ignores a value that is neither an object nor [null]; every
    other key creates or updates an own data property. *)
Definition obj_set (o : obj) (k v : jstring) : obj :=
  if str_eqb k PROTO then o
  else if has_key o k then overwrite o k v
  else match array_index k with
       | Some n => insert_index o n k v
       | None => o ++ [(k, v)]
       end.

Definition keys (o : obj) : list jstring := map fst o.

(** The own property [k] of [o], if any. *)
Fixpoint get_own (o : obj) (k : jstring) : option jstring :=
  match o with
  | [] => None
  | (k', v) :: o' => if str_eqb k' k then Some v else get_own o' k
  end.

(** *** Values that reach the formatter and the visibility test *)
Inductive jsval : Type :=
| VUndefined
| VNull
| VString (s : jstring).

(** ToBoolean *)
Definition truthy (v : jsval) : bool :=
  match v with
  | VString (_ :: _) => true
  | _ => false
  end.

(** [v === s] for a string [s] *)
Definition strict_eq_string (v : jsval) (s : jstring) : bool :=
  match v with
  | VString x => str_eqb x s
  | _ => false
  end.

(** [o.visible]: the own property when there is one; otherwise the
    lookup goes up to [Object.prototype], which has no property of that
    name, and the result is [undefined]. *)
Definition get_visible (o : obj) : jsval :=
  match get_own o (lit "visible") with
  | Some v => VString v
  | None => VUndefined
  end.

(** [v != 0] for a [v] that [!v] has found falsy (the [&&] of the guard
    evaluates it in no other case): [undefined] and [null] are loosely
    equal only to each other, and the empty string converts to 0. *)
Definition falsy_loose_ne_zero (v : jsval) : bool :=
  match v with
  | VUndefined | VNull => true
  | VString _ => false
  end.

(** [v !== 0]: no value of [jsval] is the number 0. *)
Definition strict_ne_zero (v : jsval) : bool := true.

(** [String(v)] *)
Definition to_string (v : jsval) : jstring :=
  match v with
  | VUndefined => lit "undefined"
  | VNull => lit "null"
  | VString s => s
  end.

(** *** [String.prototype.replace] with the global patterns of the file *)

(** [s.replace(/c/g, rep)] for a one-character pattern *)
Definition replace_char (c : char) (rep : jstring) (s : jstring) : jstring :=
  flat_map (fun x => if N.eqb x c then rep else [x]) s.

(** [s.replace(/\r\n/g, "\n")] *)
Fixpoint replace_crlf (s : jstring) : jstring :=
  match s with
  | x :: ((y :: s'') as s') =>
      if N.eqb x CR && N.eqb y LF then LF :: replace_crlf s''
      else x :: replace_crlf s'
  | _ => s
  end.

Definition starts_with_stars (s : jstring) : bool :=
  match s with
  | a :: b :: _ => N.eqb a STAR && N.eqb b STAR
  | _ => false
  end.

(** [(.+?)\*\*] at the start of [s]: the shortest non-empty run of
    characters other than line terminators that two asterisks follow. *)
Fixpoint lazy_group (s : jstring) : option jstring :=
  match s with
  | [] => None
  | c :: s' =>
      if is_line_terminator c then None
      else if starts_with_stars s' then Some [c]
      else option_map (cons c) (lazy_group s')
  end.

(** [\*\*(.+?)\*\*] at the start of [s]: the captured group. The match
    is the group and the four asterisks around it. *)
Definition match_double_star (s : jstring) : option jstring :=
  match s with
  | a :: b :: s' =>
      if N.eqb a STAR && N.eqb b STAR then lazy_group s' else None
  | _ => None
  end.

(** [s.replace(/\*\*(.+?)\*\*/g, (m, p1) => f p1)]: leftmost matches,
    left to right; [skip] counts the characters of the last match that
    are still to be passed over. *)
Fixpoint replace_double_star (f : jstring -> jstring) (skip : nat)
         (s : jstring) : jstring :=
  match s with
  | [] => []
  | c :: s' =>
      match skip with
      | S k => replace_double_star f k s'
      | O =>
          match match_double_star s with
          | Some p1 => f p1 ++ replace_double_star f (length p1 + 3) s'
          | None => c :: replace_double_star f 0 s'
          end
      end
  end.

Fixpoint strip_prefix (p s : jstring) : option jstring :=
  match p, s with
  | [], _ => Some s
  | x :: p', y :: s' => if N.eqb x y then strip_prefix p' s' else None
  | _ :: _, [] => None
  end.

(** [/^<strong>.*<\/strong>$/.test(p1)] *)
Definition test_strong (p1 : jstring) : bool :=
  match strip_prefix (lit "<strong>") p1 with
  | Some rest =>
      match strip_prefix (rev (lit "</strong>")) (rev rest) with
      | Some mid => forallb (fun c => negb (is_line_terminator c)) mid
      | None => false
      end
  | None => false
  end.

(** [s.includes(sub)] *)
Fixpoint includes (s sub : jstring) : bool :=
  match strip_prefix sub s with
  | Some _ => true
  | None =>
      match s with
      | [] => false
      | _ :: s' => includes s' sub
      end
  end.

(** The decimal digits of a natural number, which is how a number such as
    [Date.now()] is converted when it is added to a string. *)
Fixpoint uint_digits (u : Decimal.uint) : jstring :=
  match u with
  | Decimal.Nil => []
  | Decimal.D0 u' => 48%N :: uint_digits u'
  | Decimal.D1 u' => 49%N :: uint_digits u'
  | Decimal.D2 u' => 50%N :: uint_digits u'
  | Decimal.D3 u' => 51%N :: uint_digits u'
  | Decimal.D4 u' => 52%N :: uint_digits u'
  | Decimal.D5 u' => 53%N :: uint_digits u'
  | Decimal.D6 u' => 54%N :: uint_digits u'
  | Decimal.D7 u' => 55%N :: uint_digits u'
  | Decimal.D8 u' => 56%N :: uint_digits u'
  | Decimal.D9 u' => 57%N :: uint_digits u'
  end.

Definition number_to_string (n : N) : jstring := uint_digits (N.to_uint n).

Definition QMARK : char := 63%N.

(** *** Abrupt completion *)
Inductive error : Type :=
| ReferenceError (name : string).

Inductive completion (A : Type) : Type :=
| Normal (a : A)
| Throw (e : error).
Arguments Normal {A} a.
Arguments Throw {A} e.

Definition bind {A B : Type} (c : completion A) (k : A -> completion B)
  : completion B :=
  match c with
  | Normal a => k a
  | Throw e => Throw e
  end.

End JS.

Notation "x <- c ;; k" := (JS.bind c (fun x => k))
  (at level 61, c at next level, right associativity).

Import JS.

(** ** The scan of [parseCSV] *)

(** The local variables of the [while] loop. *)
Record scan : Type := mkScan
  { i : nat;
    cur : jstring;
    row : list jstring;
    rows : list (list jstring);
    inQuotes : bool }.

Definition scan_init : scan :=
  {| i := 0; cur := []; row := []; rows := []; inQuotes := false |}.

(** [r[j] !== undefined ? r[j].trim() : ""] *)
Definition cell (r : list jstring) (j : nat) : jstring :=
  match nth_error r j with
  | Some c => trim c
  | None => []
  end.

(** [const obj = {}; for (let j = 0; j < header.length; j++) obj[header[j]] = ...] *)
Definition make_record (header : list jstring) (r : list jstring) : obj :=
  fold_left (fun o j => obj_set o (nth j header []) (cell r j))
            (seq 0 (length header)) [].

(** ** src/PlywoodSimple.js *)

Module PlywoodSimple.

(** One iteration of [while (i < raw.length)]. *)
Definition body (raw : jstring) (st : scan) : scan :=
  match nth_error raw (i st) with
  | None => st
  | Some ch =>
      if inQuotes st then
        if N.eqb ch DQUOTE then
          if char_at_is raw (i st + 1) DQUOTE then
            {| i := i st + 2; cur := cur st ++ [DQUOTE]; row := row st;
               rows := rows st; inQuotes := true |}
          else
            {| i := i st + 1; cur := cur st; row := row st;
               rows := rows st; inQuotes := false |}
        else
          {| i := i st + 1; cur := cur st ++ [ch]; row := row st;
             rows := rows st; inQuotes := true |}
      else if N.eqb ch DQUOTE then
        {| i := i st + 1; cur := cur st; row := row st;
           rows := rows st; inQuotes := true |}
      else if N.eqb ch COMMA then
        {| i := i st + 1; cur := []; row := row st ++ [cur st];
           rows := rows st; inQuotes := false |}
      else if N.eqb ch CR || N.eqb ch LF then
        {| i := (if N.eqb ch CR && char_at_is raw (i st + 1) LF
                 then i st + 1 else i st) + 1;
           cur := []; row := [];
           rows := rows st ++ [row st ++ [cur st]]; inQuotes := false |}
      else
        {| i := i st + 1; cur := cur st ++ [ch]; row := row st;
           rows := rows st; inQuotes := false |}
  end.

(** The loop, with a bound on the number of iterations: [None] when the
    bound is reached before the guard fails. *)
Fixpoint while (fuel : nat) (raw : jstring) (st : scan) : option scan :=
  if i st <? length raw then
    match fuel with
    | O => None
    | S fuel' => while fuel' raw (body raw st)
    end
  else Some st.

(** [if (cur !== "" || row.length > 0) { row.push(cur); rows.push(row); }] *)
Definition flush (st : scan) : list (list jstring) :=
  if negb (str_eqb (cur st) []) || (0 <? length (row st))
  then rows st ++ [row st ++ [cur st]]
  else rows st.

(** From [if (rows.length === 0) return [];] to the end. *)
Definition records (rs : list (list jstring)) : list obj :=
  match rs with
  | [] => []
  | row0 :: data =>
      let header := map trim row0 in
      map (fun r => make_record header r) data
  end.

(** The rows at the end of the scan. *)
Definition scan_rows (fuel : nat) (raw : jstring) : option (list (list jstring)) :=
  option_map flush (while fuel raw scan_init).

Definition parseCSV_fuel (fuel : nat) (raw : jstring) : option (list obj) :=
  option_map records (scan_rows fuel raw).

(** Every iteration advances [i], so [raw.length] iterations are enough
    (see [while_terminates]). *)
Definition parseCSV (raw : jstring) : option (list obj) :=
  parseCSV_fuel (length raw) raw.

Definition escapeHTML (s : jsval) : jstring :=
  if negb (truthy s) && falsy_loose_ne_zero s then []
  else
    replace_char APOS (lit "&#39;")
      (replace_char DQUOTE (lit "&quot;")
         (replace_char GT (lit "&gt;")
            (replace_char LT (lit "&lt;")
               (replace_char AMP (lit "&amp;&") (to_string s))))).

(** The functions from a value to a string that the module declares.
    Neither the module nor the global object binds another name that
    [formatDescriptionToHtml] calls. *)
Definition module_scope : list (string * (jsval -> jstring)) :=
  [("escapeHTML"%string, escapeHTML)].

(** [name(arg)]: the call of an identifier that resolves to no binding
    throws a [ReferenceError]. *)
Definition call (name : string) (arg : jsval) : completion jstring :=
  match find (fun b => String.eqb (fst b) name) module_scope with
  | Some (_, f) => Normal (f arg)
  | None => Throw (ReferenceError name)
  end.

(** The callbacks of the two [replace] calls. The two template literals
    that lack their closing backquote are read as closed before the
    semicolon, and the one that lacks its opening backquote as opened
    before the asterisk. *)
Definition strong_of (p1 : jstring) : jstring :=
  lit "<strong>" ++ p1 ++ lit "</strong>".

Definition em_of (p1 : jstring) : jstring :=
  if test_strong p1 then STAR :: p1 ++ [STAR]
  else lit "<em>" ++ p1 ++ lit "</em>".

Definition formatDescriptionToHtml (raw : jsval) : completion jstring :=
  if negb (truthy raw) && strict_ne_zero raw then Normal []
  else
    safe <- call "escapeHtml" raw ;;
    let safe := replace_double_star strong_of 0 safe in
    let safe := replace_double_star em_of 0 safe in
    let safe := replace_char CR [LF] (replace_crlf safe) in
    let safe := replace_char LF (lit "<br/>") safe in
    Normal safe.

(** What [fetchCsv] does before it waits for the network: either
    [setError] with the message of lines 88-92 and no request, or the
    request of line 94. *)
Inductive fetch_start : Type :=
| SetError (message : jstring)
| Fetch (url : jstring).

(** [if (!CSV_URL || CSV_URL.includes("REPLACE_WITH")) { setError(...);
    setLoading(false); return; }] and then [fetch(CSV_URL +
    (CSV_URL.includes("?") ? "&cb=" + Date.now() : "?cb=" + Date.now()))],
    with [now] the value of [Date.now()]. *)
Definition fetchCsv_start (CSV_URL : jstring) (now : N) : fetch_start :=
  if negb (truthy (VString CSV_URL)) || includes CSV_URL (lit "REPLACE_WITH")
  then SetError (lit "Set REACT_APP_CSV_URL in .env.local or environment.")
  else Fetch (CSV_URL ++ (if includes CSV_URL (lit "?")
                          then lit "&cb=" ++ number_to_string now
                          else lit "?cb=" ++ number_to_string now)).

(** [const visible = parsed.filter(r => r.visible === "" ||
    r.visible === "true" || r.visible === "1");] in [fetchCsv]. *)
Definition visible (parsed : list obj) : list obj :=
  filter (fun r =>
            strict_eq_string (get_visible r) []
            || strict_eq_string (get_visible r) (lit "true")
            || strict_eq_string (get_visible r) (lit "1")) parsed.

End PlywoodSimple.


(** ** src/PlywoodSingle.js *)

Module PlywoodSingle.

(** One iteration of [while (i < raw.length)]. *)
Definition body (raw : jstring) (st : scan) : scan :=
  match nth_error raw (i st) with
  | None => st
  | Some ch =>
      if inQuotes st then
        if N.eqb ch DQUOTE then
          if char_at_is raw (i st + 1) DQUOTE then
            {| i := i st + 2; cur := cur st ++ [DQUOTE]; row := row st;
               rows := rows st; inQuotes := true |}
          else
            {| i := i st + 1; cur := cur st; row := row st;
               rows := rows st; inQuotes := false |}
        else
          {| i := i st + 1; cur := cur st ++ [ch]; row := row st;
             rows := rows st; inQuotes := true |}
      else if N.eqb ch DQUOTE then
        {| i := i st + 1; cur := cur st; row := row st;
           rows := rows st; inQuotes := true |}
      else if N.eqb ch COMMA then
        {| i := i st + 1; cur := []; row := row st ++ [cur st];
           rows := rows st; inQuotes := false |}
      else if N.eqb ch CR || N.eqb ch LF then
        {| i := (if N.eqb ch CR && char_at_is raw (i st + 1) LF
                 then i st + 1 else i st) + 1;
           cur := []; row := [];
           rows := rows st ++ [row st ++ [cur st]]; inQuotes := false |}
      else
        {| i := i st + 1; cur := cur st ++ [ch]; row := row st;
           rows := rows st; inQuotes := false |}
  end.

(** The loop, with a bound on the number of iterations: [None] when the
    bound is reached before the guard fails. *)
Fixpoint while (fuel : nat) (raw : jstring) (st : scan) : option scan :=
  if i st <? length raw then
    match fuel with
    | O => None
    | S fuel' => while fuel' raw (body raw st)
    end
  else Some st.

(** [if (cur !== "" || row.length > 0) { row.push(cur); rows.push(row); }] *)
Definition flush (st : scan) : list (list jstring) :=
  if negb (str_eqb (cur st) []) || (0 <? length (row st))
  then rows st ++ [row st ++ [cur st]]
  else rows st.

(** From [if (rows.length === 0) return [];] to [return data;]. *)
Definition records (rs : list (list jstring)) : list obj :=
  match rs with
  | [] => []
  | row0 :: rest =>
      let header := map trim row0 in
      let data := map (fun r => make_record header r) rest in
      data
  end.

(** The rows at the end of the scan. *)
Definition scan_rows (fuel : nat) (raw : jstring) : option (list (list jstring)) :=
  option_map flush (while fuel raw scan_init).

Definition parseCSV_fuel (fuel : nat) (raw : jstring) : option (list obj) :=
  option_map records (scan_rows fuel raw).

(** Every iteration advances [i], so [raw.length] iterations are enough
    (see [while_terminates]). *)
Definition parseCSV (raw : jstring) : option (list obj) :=
  parseCSV_fuel (length raw) raw.


(** [parsed.filter(row => (row.visible === "" || row.visible === "true"
    || row.visible === "1"))] in [fetchSheet]. *)
Definition items (parsed : list obj) : list obj :=
  filter (fun row =>
            strict_eq_string (get_visible row) []
            || strict_eq_string (get_visible row) (lit "true")
            || strict_eq_string (get_visible row) (lit "1")) parsed.

End PlywoodSingle.

(** ** Vocabulary of the statements *)

(** What an assignment does to the sequence of keys. *)
Fixpoint insert_index_key (ks : list jstring) (n : N) (k : jstring)
  : list jstring :=
  match ks with
  | [] => [k]
  | k' :: ks' =>
      match array_index k' with
      | Some m => if N.ltb m n then k' :: insert_index_key ks' n k else k :: ks
      | None => k :: ks
      end
  end.

Definition set_key (ks : list jstring) (k : jstring) : list jstring :=
  if str_eqb k PROTO then ks
  else if existsb (fun k' => str_eqb k' k) ks then ks
  else match array_index k with
       | Some n => insert_index_key ks n k
       | None => ks ++ [k]
       end.

(** A key that is neither [__proto__] nor an array index. *)
Definition plain_key (k : jstring) : Prop :=
  k <> PROTO /\ array_index k = None.

Definition assign (o : obj) (kv : jstring * jstring) : obj :=
  obj_set o (fst kv) (snd kv).

(** The cells that [make_record] reads, in the order of the header. *)
Definition cells (n : nat) (r : list jstring) : list jstring :=
  map (cell r) (seq 0 n).

(** The text [s] read as the rest of a quoted field that nothing closes:
    two double quotes in a row stand for one, and a double quote that no
    double quote follows would close the field ([None]). *)
Fixpoint open_field (s : jstring) : option jstring :=
  match s with
  | [] => Some []
  | c :: s' =>
      if N.eqb c DQUOTE then
        match s' with
        | d :: s'' =>
            if N.eqb d DQUOTE then option_map (cons DQUOTE) (open_field s'')
            else None
        | [] => None
        end
      else option_map (cons c) (open_field s')
  end.

(** Neither the first nor the last character of [s] is one that [trim]
    strips. *)
Definition trimmed (s : jstring) : Prop :=
  (forall c, hd_error s = Some c -> is_trimmable c = false) /\
  (forall c, hd_error (rev s) = Some c -> is_trimmable c = false).

(** The record has an own field [visible] whose value is the empty
    string, [true] or [1]. *)
Definition shown (r : obj) : Prop :=
  get_own r (lit "visible") = Some [] \/
  get_own r (lit "visible") = Some (lit "true") \/
  get_own r (lit "visible") = Some (lit "1").

(** *** The scan read on the text that is left

    [scan_text s st] is the state in which the loop ends when [s] is the
    text from index [i st] on; the index itself is left as it is. *)
Definition end_row (st : scan) : scan :=
  {| i := i st; cur := []; row := [];
     rows := rows st ++ [row st ++ [cur st]]; inQuotes := false |}.

Definition add_char (ch : char) (st : scan) : scan :=
  {| i := i st; cur := cur st ++ [ch]; row := row st; rows := rows st;
     inQuotes := inQuotes st |}.

Definition end_field (st : scan) : scan :=
  {| i := i st; cur := []; row := row st ++ [cur st]; rows := rows st;
     inQuotes := false |}.

Definition set_quotes (q : bool) (st : scan) : scan :=
  {| i := i st; cur := cur st; row := row st; rows := rows st;
     inQuotes := q |}.

Definition set_index (n : nat) (st : scan) : scan :=
  {| i := n; cur := cur st; row := row st; rows := rows st;
     inQuotes := inQuotes st |}.

Fixpoint scan_text (s : jstring) (st : scan) : scan :=
  match s with
  | [] => st
  | ch :: s' =>
      if inQuotes st then
        if N.eqb ch DQUOTE then
          match s' with
          | d :: s'' =>
              if N.eqb d DQUOTE then scan_text s'' (add_char DQUOTE st)
              else scan_text s' (set_quotes false st)
          | [] => set_quotes false st
          end
        else scan_text s' (add_char ch st)
      else if N.eqb ch DQUOTE then scan_text s' (set_quotes true st)
      else if N.eqb ch COMMA then scan_text s' (end_field st)
      else if N.eqb ch CR then
        match s' with
        | d :: s'' =>
            if N.eqb d LF then scan_text s'' (end_row st)
            else scan_text s' (end_row st)
        | [] => end_row st
        end
      else if N.eqb ch LF then scan_text s' (end_row st)
      else scan_text s' (add_char ch st)
  end.

Definition add_text (f : jstring) (st : scan) : scan :=
  {| i := i st; cur := cur st ++ f; row := row st; rows := rows st;
     inQuotes := inQuotes st |}.

(** The number of carriage returns and line feeds of [s]. *)
Definition count_eol (s : jstring) : nat :=
  length (filter (fun c => N.eqb c CR || N.eqb c LF) s).

(** *** Writing a table as text

    A field is written bare or between double quotes, with every double
    quote of its text doubled; the fields of a row are joined by commas
    and every row ends with LF or with CR LF. *)
Fixpoint quote_escape (f : jstring) : jstring :=
  match f with
  | [] => []
  | c :: f' =>
      if N.eqb c DQUOTE then DQUOTE :: DQUOTE :: quote_escape f'
      else c :: quote_escape f'
  end.

Definition bare (f : jstring) : bool :=
  forallb (fun c => negb (N.eqb c DQUOTE || N.eqb c COMMA
                          || N.eqb c CR || N.eqb c LF)) f.

Definition write_field (qf : bool * jstring) : jstring :=
  if fst qf then DQUOTE :: quote_escape (snd qf) ++ [DQUOTE] else snd qf.

Fixpoint write_row (r : list (bool * jstring)) : jstring :=
  match r with
  | [] => []
  | qf :: r' =>
      match r' with
      | [] => write_field qf
      | _ :: _ => write_field qf ++ COMMA :: write_row r'
      end
  end.

Definition eol (crlf : bool) : jstring := if crlf then [CR; LF] else [LF].

Definition write_table (crlf : bool) (t : list (list (bool * jstring)))
  : jstring :=
  flat_map (fun r => write_row r ++ eol crlf) t.

(** A field written bare has no double quote, comma, CR or LF. *)
Definition field_ok (qf : bool * jstring) : bool := fst qf || bare (snd qf).

(** Every row has a field, and every bare field can be written bare. *)
Definition table_ok (t : list (list (bool * jstring))) : bool :=
  forallb (fun r => match r with
                    | [] => false
                    | _ :: _ => forallb field_ok r
                    end) t.

(** The value that the last of the pairs of [kvs] with key [k] carries,
    [init] when there is none. *)
Definition last_value (k : jstring) (kvs : list (jstring * jstring))
           (init : option jstring) : option jstring :=
  fold_left (fun r kv => if str_eqb (fst kv) k then Some (snd kv) else r)
            kvs init.

(** The test of the visibility filter on the text of a cell. *)
Definition cell_shows (v : jstring) : bool :=
  str_eqb v [] || str_eqb v (lit "true") || str_eqb v (lit "1").

(** One of the five characters that [escapeHTML] replaces. *)
Definition markup_char (c : char) : bool :=
  N.eqb c AMP || N.eqb c LT || N.eqb c GT || N.eqb c DQUOTE || N.eqb c APOS.

(** What [escapeHTML] writes for one character. *)
Definition escape_char (c : char) : jstring :=
  if N.eqb c AMP then lit "&amp;&"
  else if N.eqb c LT then lit "&lt;"
  else if N.eqb c GT then lit "&gt;"
  else if N.eqb c DQUOTE then lit "&quot;"
  else if N.eqb c APOS then lit "&#39;"
  else [c].

(** The statements of [formatDescriptionToHtml] that follow the call of
    the escaping function, on its result. *)
Definition format_steps (safe : jstring) : jstring :=
  let safe := replace_double_star PlywoodSimple.strong_of 0 safe in
  let safe := replace_double_star PlywoodSimple.em_of 0 safe in
  let safe := replace_char CR [LF] (replace_crlf safe) in
  let safe := replace_char LF (lit "<br/>") safe in
  safe.

(** No asterisk in [s]. *)
Definition star_free (s : jstring) : bool :=
  forallb (fun c => negb (N.eqb c STAR)) s.

(** Neither an asterisk nor a line terminator in [s]. *)
Definition plain_text (s : jstring) : bool :=
  forallb (fun c => negb (N.eqb c STAR || is_line_terminator c)) s.

(** ** Inputs of the examples *)

Definition ex_visible_csv : jstring :=
  lit "id,visible" ++ LF :: lit "1, true" ++ LF :: lit "2,no" ++ LF :: lit "3".

Definition ex_table_padded : list (list (bool * jstring)) :=
  [ [(false, lit " id "); (true, lit "v")];
    [(true, lit " 1"); (false, lit "x  ")] ].

Definition ex_table_trimmed : list (list (bool * jstring)) :=
  [ [(false, lit "id"); (false, lit "v")];
    [(false, lit "1"); (true, lit "x")] ].

Definition ex_table : list (list (bool * jstring)) :=
  [ [(false, lit "id"); (true, lit "note")];
    [(false, lit "1");
     (true, lit "hello, " ++ DQUOTE :: lit "world" ++ DQUOTE :: LF :: lit "line2")];
    [(true, []); (false, [])] ].

Definition ex_birch : jstring :=
  lit "id,category" ++ LF :: lit "1,Birch" ++ LF :: lit "2,Oak".

Definition ex_note : jstring :=
  lit "id,note" ++ LF :: lit "1," ++ DQUOTE :: lit "hello, " ++ DQUOTE :: DQUOTE
    :: lit "world" ++ DQUOTE :: DQUOTE :: LF :: lit "line2" ++ [DQUOTE].

Definition ex_open_quote : jstring :=
  lit "a" ++ LF :: DQUOTE :: lit "x,y" ++ LF :: lit "z".

(** The scan of [ex_open_quote] after its opening quote. *)
Definition st_open_quote : scan :=
  {| i := 3; cur := []; row := []; rows := [[lit "a"]]; inQuotes := true |}.

Definition ex_dup_header : jstring := lit "a,a" ++ LF :: lit "1,2".

Definition ex_quoted_spaces : jstring :=
  lit "a" ++ LF :: DQUOTE :: lit "  x  " ++ [DQUOTE].

(** A scan inside a quoted field at index [k], with [cur] holding [c]. *)
Definition st_quoted (k : nat) (c : jstring) : scan :=
  {| i := k; cur := c; row := [lit "1"]; rows := [[lit "id"; lit "note"]];
     inQuotes := true |}.

(** A scan outside quotes at index [k], with one completed field. *)
Definition st_plain (k : nat) (c : jstring) : scan :=
  {| i := k; cur := c; row := [lit "1"]; rows := [[lit "id"; lit "category"]];
     inQuotes := false |}.

Definition ex_crlf : jstring :=
  lit "id,category" ++ CR :: LF :: lit "1,Birch" ++ CR :: lit "2,Oak" ++ [LF].

Definition ex_visible : list obj :=
  [ [(lit "id", lit "1"); (lit "visible", lit "true")];
    [(lit "id", lit "2"); (lit "visible", lit "no")];
    [(lit "id", lit "3")];
    [(lit "id", lit "4"); (lit "visible", [])];
    [(lit "id", lit "5"); (lit "visible", lit "1")];
    [(lit "id", lit "6"); (lit "visible", lit "TRUE")] ].

(** * Properties *)

(** ** Termination of the scan *)

Section Scan.

Import PlywoodSimple.

Lemma nth_error_lt (raw : jstring) (n : nat) :
  n < length raw -> exists ch, nth_error raw n = Some ch.
Proof.
  intro H. destruct (nth_error raw n) as [ch|] eqn:E.
  - now exists ch.
  - apply nth_error_None in E. lia.
Qed.

Lemma body_advances (raw : jstring) (st : scan) :
  i st < length raw -> i st < i (body raw st) <= i st + 2.
Proof.
  intro H. destruct (nth_error_lt raw (i st) H) as [ch Hch].
  unfold body. rewrite Hch.
  repeat match goal with
         | |- context [if ?b then _ else _] => destruct b
         end; simpl; lia.
Qed.

Lemma while_terminates (fuel : nat) :
  forall (raw : jstring) (st : scan),
    length raw - i st <= fuel ->
    exists st', while fuel raw st = Some st' /\ length raw <= i st'.
Proof.
  induction fuel as [|fuel IH]; intros raw st Hfuel; simpl.
  - destruct (Nat.ltb_spec (i st) (length raw)) as [Hlt|Hge].
    + lia.
    + exists st. split; [reflexivity | assumption].
  - destruct (Nat.ltb_spec (i st) (length raw)) as [Hlt|Hge].
    + apply IH. pose proof (body_advances raw st Hlt). lia.
    + exists st. split; [reflexivity | assumption].
Qed.

(** More iterations allowed do not change the result. *)
Lemma while_fuel_mono (fuel : nat) :
  forall (fuel' : nat) (raw : jstring) (st st' : scan),
    fuel <= fuel' ->
    while fuel raw st = Some st' -> while fuel' raw st = Some st'.
Proof.
  induction fuel as [|fuel IH]; intros fuel' raw st st' Hle; simpl.
  - destruct (i st <? length raw) eqn:E; [discriminate|].
    intro H. destruct fuel'; simpl; rewrite E; exact H.
  - destruct (i st <? length raw) eqn:E.
    + destruct fuel' as [|fuel']; [lia|]. simpl. rewrite E.
      apply IH. lia.
    + intro H. destruct fuel'; simpl; rewrite E; exact H.
Qed.

Lemma scan_rows_total (raw : jstring) :
  exists rs, scan_rows (length raw) raw = Some rs.
Proof.
  destruct (while_terminates (length raw) raw scan_init) as [st [Hst _]].
  - simpl. lia.
  - exists (flush st). unfold scan_rows. now rewrite Hst.
Qed.

Lemma parseCSV_returns (raw : jstring) :
  exists recs, parseCSV raw = Some recs.
Proof.
  destruct (scan_rows_total raw) as [rs Hrs].
  exists (records rs). unfold parseCSV, parseCSV_fuel. now rewrite Hrs.
Qed.

(** A larger bound on the iterations gives the same records. *)
Lemma parseCSV_fuel_enough (raw : jstring) (extra : nat) :
  parseCSV_fuel (length raw + extra) raw = parseCSV raw.
Proof.
  destruct (while_terminates (length raw) raw scan_init) as [st [Hst _]].
  - simpl. lia.
  - unfold parseCSV, parseCSV_fuel, scan_rows.
    rewrite Hst.
    rewrite (while_fuel_mono (length raw) (length raw + extra) raw
                             scan_init st); [reflexivity | lia | exact Hst].
Qed.

Lemma skipn_cons_nth (raw : jstring) (n : nat) (c : char) (r : jstring) :
  skipn n raw = c :: r -> nth_error raw n = Some c /\ skipn (n + 1) raw = r.
Proof.
  revert n. induction raw as [|x raw IH]; intros [|n] H; simpl in *;
    try discriminate.
  - inversion H. now split.
  - now apply IH.
Qed.

Lemma skipn_nil_length (raw : jstring) (n : nat) :
  n <= length raw -> skipn n raw = [] -> n = length raw.
Proof.
  intros Hle H. apply (f_equal (@length char)) in H.
  rewrite length_skipn in H. simpl in H. lia.
Qed.

(** Inside a quoted field that no later quote closes, the loop appends
    all that is left of the input to [cur], a pair of double quotes as
    one, and ends in quoted mode. *)
Lemma while_open_field (fuel : nat) :
  forall (raw : jstring) (st : scan) (f : jstring),
    inQuotes st = true ->
    i st <= length raw ->
    length raw - i st <= fuel ->
    open_field (skipn (i st) raw) = Some f ->
    while fuel raw st =
      Some {| i := length raw; cur := cur st ++ f;
              row := row st; rows := rows st; inQuotes := true |}.
Proof.
  induction fuel as [|fuel IH]; intros raw st f Hq Hi Hfuel Hopen.
  - assert (E : i st = length raw) by lia.
    rewrite E, skipn_all in Hopen. inversion Hopen; subst f.
    simpl. rewrite E, Nat.ltb_irrefl, app_nil_r.
    destruct st; simpl in *; subst; reflexivity.
  - simpl. destruct (skipn (i st) raw) as [|c r] eqn:Hskip.
    + apply skipn_nil_length in Hskip; [|assumption].
      inversion Hopen; subst f.
      rewrite Hskip, Nat.ltb_irrefl, app_nil_r.
      destruct st; simpl in *; subst; reflexivity.
    + destruct (skipn_cons_nth _ _ _ _ Hskip) as [Hc Hr].
      assert (Hlt : i st < length raw).
      { apply nth_error_Some. congruence. }
      apply Nat.ltb_lt in Hlt. rewrite Hlt. apply Nat.ltb_lt in Hlt.
      simpl in Hopen. destruct (N.eqb_spec c DQUOTE) as [->|Hne].
      * destruct r as [|d r']; [discriminate|].
        destruct (N.eqb_spec d DQUOTE) as [->|]; [|discriminate].
        destruct (open_field r') as [f'|] eqn:Hf'; [|discriminate].
        inversion Hopen; subst f.
        destruct (skipn_cons_nth _ _ _ _ Hr) as [Hd Hr'].
        assert (Hlt' : i st + 1 < length raw).
        { apply nth_error_Some. congruence. }
        assert (Hb : body raw st =
                     {| i := i st + 2; cur := cur st ++ [DQUOTE];
                        row := row st; rows := rows st; inQuotes := true |}).
        { unfold body, char_at_is. now rewrite Hc, Hq, Hd. }
        rewrite Hb, (IH _ _ f'); simpl; try lia; try reflexivity.
        -- now rewrite <- app_assoc.
        -- replace (i st + 2) with (i st + 1 + 1) by lia. now rewrite Hr'.
      * destruct (open_field r) as [f'|] eqn:Hf'; [|discriminate].
        inversion Hopen; subst f.
        apply N.eqb_neq in Hne.
        assert (Hb : body raw st =
                     {| i := i st + 1; cur := cur st ++ [c]; row := row st;
                        rows := rows st; inQuotes := true |}).
        { unfold body. now rewrite Hc, Hq, Hne. }
        rewrite Hb, (IH _ _ f'); simpl; try lia; try reflexivity.
        -- now rewrite <- app_assoc.
        -- now rewrite Hr.
Qed.

Lemma scan_eq (a b : scan) :
  i a = i b -> cur a = cur b -> row a = row b -> rows a = rows b ->
  inQuotes a = inQuotes b -> a = b.
Proof. destruct a, b; simpl; intros; subst; reflexivity. Qed.

Lemma set_index_twice (n m : nat) (st : scan) :
  set_index n (set_index m st) = set_index n st.
Proof. reflexivity. Qed.

(** Induction for functions that read one or two characters at a time. *)
Lemma two_step_ind (P : jstring -> Prop) :
  P [] ->
  (forall ch s', P s' -> (forall d s'', s' = d :: s'' -> P s'') -> P (ch :: s')) ->
  forall s, P s.
Proof.
  intros Hnil Hstep s.
  assert (H : P s /\ forall d s'', s = d :: s'' -> P s'').
  { induction s as [|ch s' [IH1 IH2]].
    - split; [exact Hnil | discriminate].
    - split; [now apply Hstep|]. intros d s'' E. now inversion E; subst. }
  exact (proj1 H).
Qed.

Lemma scan_text_set_index (s : jstring) :
  forall (st : scan) (n : nat),
    scan_text s (set_index n st) = set_index n (scan_text s st).
Proof.
  induction s as [|ch s' IH1 IH2] using two_step_ind; intros st n;
    [reflexivity|].
  simpl. destruct (inQuotes st); [destruct (N.eqb ch DQUOTE)|].
  - destruct s' as [|d s'']; [reflexivity|].
    destruct (N.eqb d DQUOTE).
    + apply (IH2 d s'' eq_refl (add_char DQUOTE st)).
    + apply (IH1 (set_quotes false st)).
  - apply (IH1 (add_char ch st)).
  - destruct (N.eqb ch DQUOTE); [apply (IH1 (set_quotes true st))|].
    destruct (N.eqb ch COMMA); [apply (IH1 (end_field st))|].
    destruct (N.eqb ch CR).
    + destruct s' as [|d s'']; [reflexivity|].
      destruct (N.eqb d LF).
      * apply (IH2 d s'' eq_refl (end_row st)).
      * apply (IH1 (end_row st)).
    + destruct (N.eqb ch LF); [apply (IH1 (end_row st))|].
      apply (IH1 (add_char ch st)).
Qed.

(** One iteration against one step of [scan_text]: [k] characters read. *)
Ltac scan_step H k s2 st2 :=
  apply (H k s2 _ st2 eq_refl);
  [ unfold body, char_at_is;
    repeat match goal with
           | E : nth_error _ _ = _ |- _ => rewrite E
           | E : inQuotes _ = _ |- _ => rewrite E
           | E : N.eqb _ _ = _ |- _ => rewrite E
           end; simpl; lia
  | first [assumption | reflexivity]
  | lia
  | lia
  | unfold body, char_at_is;
    repeat match goal with
           | E : nth_error _ _ = _ |- _ => rewrite E
           | E : inQuotes _ = _ |- _ => rewrite E
           | E : N.eqb _ _ = _ |- _ => rewrite E
           end; apply scan_eq; simpl; congruence ].

(** The loop on indices ends in the state that [scan_text] computes on
    the text from [i st] on. *)
Lemma while_scan_text (fuel : nat) :
  forall (raw : jstring) (st : scan),
    i st <= length raw ->
    length raw - i st <= fuel ->
    while fuel raw st =
      Some (set_index (length raw) (scan_text (skipn (i st) raw) st)).
Proof.
  induction fuel as [|fuel IH]; intros raw st Hi Hfuel.
  - assert (E : i st = length raw) by lia.
    simpl. rewrite E, Nat.ltb_irrefl, skipn_all. simpl.
    f_equal. apply scan_eq; simpl; congruence.
  - simpl. destruct (skipn (i st) raw) as [|ch s'] eqn:Hskip.
    + apply skipn_nil_length in Hskip; [|assumption].
      rewrite Hskip, Nat.ltb_irrefl. simpl.
      f_equal. apply scan_eq; simpl; congruence.
    + destruct (skipn_cons_nth _ _ _ _ Hskip) as [Hc Hr].
      assert (Hlt : i st < length raw).
      { apply nth_error_Some. congruence. }
      apply Nat.ltb_lt in Hlt. rewrite Hlt. apply Nat.ltb_lt in Hlt.
      assert (Hnext : forall d s'', s' = d :: s'' ->
                nth_error raw (i st + 1) = Some d /\
                skipn (i st + 2) raw = s'' /\ i st + 2 <= length raw).
      { intros d s'' ->. destruct (skipn_cons_nth _ _ _ _ Hr) as [Hd Hr'].
        split; [exact Hd|]. split.
        - replace (i st + 2) with (i st + 1 + 1) by lia. exact Hr'.
        - assert (i st + 1 < length raw) by (apply nth_error_Some; congruence).
          lia. }
      assert (Hnone : s' = [] -> nth_error raw (i st + 1) = None).
      { intros ->. apply nth_error_None.
        apply (f_equal (@length char)) in Hr. rewrite length_skipn in Hr.
        simpl in Hr. lia. }
      assert (Hstep : forall (k : nat) (s2 : jstring) (st1 st2 : scan),
                 body raw st = st1 ->
                 i st1 = i st + k ->
                 skipn (i st + k) raw = s2 ->
                 1 <= k -> i st + k <= length raw ->
                 set_index (i st) st1 = st2 ->
                 while fuel raw (body raw st) =
                   Some (set_index (length raw) (scan_text s2 st2))).
      { intros k s2 st1 st2 Hb Hi1 Hs Hk Hle <-.
        rewrite Hb, IH by (rewrite ?Hi1; lia).
        rewrite Hi1, Hs. f_equal.
        rewrite scan_text_set_index. reflexivity. }
      assert (H1 : i st + 1 <= length raw) by lia.
      simpl scan_text.
      destruct (inQuotes st) eqn:Hq; [destruct (N.eqb ch DQUOTE) eqn:E1|].
      * destruct s' as [|d s''].
        -- pose proof (Hnone eq_refl) as Hd.
           scan_step Hstep 1 (@nil char) (set_quotes false st).
        -- destruct (Hnext d s'' eq_refl) as [Hd [Hs Hle]].
           destruct (N.eqb d DQUOTE) eqn:E2;
             [ scan_step Hstep 2 s'' (add_char DQUOTE st)
             | scan_step Hstep 1 (d :: s'') (set_quotes false st) ].
      * scan_step Hstep 1 s' (add_char ch st).
      * destruct (N.eqb ch DQUOTE) eqn:E1;
          [scan_step Hstep 1 s' (set_quotes true st)|].
        destruct (N.eqb ch COMMA) eqn:E2;
          [scan_step Hstep 1 s' (end_field st)|].
        destruct (N.eqb ch CR) eqn:E3.
        -- destruct s' as [|d s''].
           ++ pose proof (Hnone eq_refl) as Hd.
              scan_step Hstep 1 (@nil char) (end_row st).
           ++ destruct (Hnext d s'' eq_refl) as [Hd [Hs Hle]].
              destruct (N.eqb d LF) eqn:E4;
                [ scan_step Hstep 2 s'' (end_row st)
                | scan_step Hstep 1 (d :: s'') (end_row st) ].
        -- destruct (N.eqb ch LF) eqn:E4;
             [ scan_step Hstep 1 s' (end_row st)
             | scan_step Hstep 1 s' (add_char ch st) ].
Qed.

(** The rows of a decode, read off [scan_text]. *)
Lemma scan_rows_text (raw : jstring) :
  scan_rows (length raw) raw = Some (flush (scan_text raw scan_init)).
Proof.
  unfold scan_rows. rewrite while_scan_text by (simpl; lia). reflexivity.
Qed.

Lemma parseCSV_text (raw : jstring) :
  parseCSV raw = Some (records (flush (scan_text raw scan_init))).
Proof.
  unfold parseCSV, parseCSV_fuel. now rewrite scan_rows_text.
Qed.

End Scan.

(** ** Objects *)

Section Objects.

Lemma str_eqb_eq (a b : jstring) : str_eqb a b = true <-> a = b.
Proof.
  revert b. induction a as [|x a IH]; intros [|y b]; simpl;
    try (split; [discriminate | congruence]); try tauto.
  rewrite andb_true_iff, N.eqb_eq, IH. split.
  - intros [-> ->]. reflexivity.
  - intro H. inversion H. tauto.
Qed.

Lemma str_eqb_refl (a : jstring) : str_eqb a a = true.
Proof. now apply str_eqb_eq. Qed.

Lemma str_eqb_neq (a b : jstring) : str_eqb a b = false <-> a <> b.
Proof.
  rewrite <- str_eqb_eq. destruct (str_eqb a b); split; congruence.
Qed.

Lemma has_key_In (o : obj) (k : jstring) :
  has_key o k = true <-> In k (keys o).
Proof.
  induction o as [|[k' v'] o IH]; simpl.
  - split; [discriminate | tauto].
  - rewrite orb_true_iff, str_eqb_eq, IH. tauto.
Qed.

Lemma has_key_existsb (o : obj) (k : jstring) :
  has_key o k = existsb (fun k' => str_eqb k' k) (keys o).
Proof.
  induction o as [|[k' v'] o IH]; simpl; [reflexivity | now rewrite IH].
Qed.

Lemma keys_overwrite (o : obj) (k v : jstring) : keys (overwrite o k v) = keys o.
Proof.
  induction o as [|[k' v'] o IH]; simpl; [reflexivity|].
  destruct (str_eqb k' k); simpl; [reflexivity | now rewrite IH].
Qed.

Lemma keys_insert_index (o : obj) (n : N) (k v : jstring) :
  keys (insert_index o n k v) = insert_index_key (keys o) n k.
Proof.
  induction o as [|[k' v'] o IH]; simpl; [reflexivity|].
  destruct (array_index k') as [m|]; [|reflexivity].
  destruct (N.ltb m n); simpl; [now rewrite IH | reflexivity].
Qed.

Lemma keys_obj_set (o : obj) (k v : jstring) :
  keys (obj_set o k v) = set_key (keys o) k.
Proof.
  unfold obj_set, set_key. rewrite has_key_existsb.
  destruct (str_eqb k PROTO); [reflexivity|].
  destruct (existsb _ (keys o)); [apply keys_overwrite|].
  destruct (array_index k) as [n|]; [apply keys_insert_index|].
  unfold keys. rewrite map_app. reflexivity.
Qed.

Lemma In_overwrite (o : obj) (k0 v0 k v : jstring) :
  In (k, v) (overwrite o k0 v0) -> In (k, v) o \/ (k, v) = (k0, v0).
Proof.
  induction o as [|[k' v'] o IH]; simpl; [tauto|].
  destruct (str_eqb k' k0) eqn:E; simpl.
  - apply str_eqb_eq in E. subst k'. intros [H|H]; [right; congruence | tauto].
  - intros [H|H]; [tauto | destruct (IH H); tauto].
Qed.

Lemma In_insert_index (o : obj) (n : N) (k0 v0 k v : jstring) :
  In (k, v) (insert_index o n k0 v0) -> In (k, v) o \/ (k, v) = (k0, v0).
Proof.
  induction o as [|[k' v'] o IH]; simpl.
  - intros [H|[]]. right. congruence.
  - destruct (array_index k') as [m|]; [destruct (N.ltb m n)|]; simpl;
      intros [H|H]; try tauto; try (right; congruence);
      destruct (IH H); tauto.
Qed.

(** A property of an object is one it had or the one assigned. *)
Lemma In_obj_set (o : obj) (k0 v0 k v : jstring) :
  In (k, v) (obj_set o k0 v0) -> In (k, v) o \/ (k, v) = (k0, v0).
Proof.
  unfold obj_set.
  destruct (str_eqb k0 PROTO); [tauto|].
  destruct (has_key o k0); [apply In_overwrite|].
  destruct (array_index k0) as [n|]; [apply In_insert_index|].
  rewrite in_app_iff. simpl. intros [H|[H|[]]]; [tauto | right; congruence].
Qed.

Lemma obj_set_fresh (o : obj) (k v : jstring) :
  plain_key k -> ~ In k (keys o) -> obj_set o k v = o ++ [(k, v)].
Proof.
  intros [Hp Ha] Hn. unfold obj_set.
  apply str_eqb_neq in Hp. rewrite Hp.
  destruct (has_key o k) eqn:E.
  - apply has_key_In in E. contradiction.
  - now rewrite Ha.
Qed.

Lemma fold_assign_fresh (ks vs : list jstring) :
  forall acc : obj,
    NoDup ks ->
    (forall k, In k ks -> plain_key k /\ ~ In k (keys acc)) ->
    fold_left assign (combine ks vs) acc = acc ++ combine ks vs.
Proof.
  revert vs. induction ks as [|k ks IH]; intros vs acc Hnd Hk; simpl.
  - now rewrite app_nil_r.
  - destruct vs as [|v vs]; simpl; [now rewrite app_nil_r|].
    inversion Hnd as [|? ? Hnotin Hnd']; subst.
    destruct (Hk k (or_introl eq_refl)) as [Hp Hfresh].
    unfold assign at 2. simpl. rewrite (obj_set_fresh _ _ _ Hp Hfresh).
    rewrite IH; [now rewrite <- app_assoc | assumption |].
    intros k' Hk'. destruct (Hk k' (or_intror Hk')) as [Hp' Hf'].
    split; [assumption|]. unfold keys. rewrite map_app, in_app_iff. simpl.
    intros [H|[H|[]]]; [now apply Hf' | congruence].
Qed.

Lemma keys_fold_assign (ks vs : list jstring) :
  forall acc : obj,
    length vs = length ks ->
    keys (fold_left assign (combine ks vs) acc) = fold_left set_key ks (keys acc).
Proof.
  revert vs. induction ks as [|k ks IH]; intros [|v vs] acc Hlen;
    simpl in *; try discriminate; [reflexivity|].
  rewrite IH by lia. unfold assign. simpl. now rewrite keys_obj_set.
Qed.

Lemma In_fold_assign (kvs : list (jstring * jstring)) :
  forall (acc : obj) (k v : jstring),
    In (k, v) (fold_left assign kvs acc) -> In (k, v) acc \/ In (k, v) kvs.
Proof.
  induction kvs as [|[k0 v0] kvs IH]; intros acc k v; simpl; [tauto|].
  intro H. destruct (IH _ _ _ H) as [H1|H1]; [|tauto].
  destruct (In_obj_set _ _ _ _ _ H1) as [H2|H2]; [tauto|].
  right. left. simpl in H2. congruence.
Qed.

Lemma make_record_loop (r hs : list jstring) :
  forall (pre : list jstring) (acc : obj),
    fold_left (fun o j => obj_set o (nth j (pre ++ hs) []) (cell r j))
              (seq (length pre) (length hs)) acc =
    fold_left assign (combine hs (map (cell r) (seq (length pre) (length hs)))) acc.
Proof.
  induction hs as [|h hs IH]; intros pre acc; simpl; [reflexivity|].
  rewrite app_nth2, Nat.sub_diag by lia. simpl.
  specialize (IH (pre ++ [h]) (assign acc (h, cell r (length pre)))).
  rewrite <- app_assoc, length_app in IH. simpl in IH.
  rewrite Nat.add_1_r in IH. exact IH.
Qed.

(** The loop over [j] assigns the header names in order, each with the
    cell of its position. *)
Lemma make_record_assign (header r : list jstring) :
  make_record header r =
  fold_left assign (combine header (cells (length header) r)) [].
Proof. exact (make_record_loop r header [] []). Qed.

Lemma length_cells (n : nat) (r : list jstring) : length (cells n r) = n.
Proof. unfold cells. now rewrite length_map, length_seq. Qed.

Lemma cells_nil (n : nat) : cells n [] = repeat [] n.
Proof.
  unfold cells. generalize 0. induction n as [|n IH]; intro s; simpl.
  - reflexivity.
  - rewrite IH. unfold cell. now destruct s.
Qed.

(** Cells past the header are not read; positions past the row read the
    empty string. *)
Lemma cells_firstn (n : nat) :
  forall r : list jstring,
    cells n r = firstn n (map trim r) ++ repeat [] (n - length r).
Proof.
  induction n as [|n IH]; intros r; [reflexivity|].
  destruct r as [|x r].
  - now rewrite cells_nil.
  - unfold cells. simpl. f_equal.
    rewrite <- seq_shift, map_map. apply IH.
Qed.

Lemma cells_In (n : nat) (r : list jstring) (v : jstring) :
  In v (cells n r) -> v = [] \/ exists c, In c r /\ v = trim c.
Proof.
  unfold cells. rewrite in_map_iff. intros [j [<- _]]. unfold cell.
  destruct (nth_error r j) as [c|] eqn:E; [|now left].
  right. exists c. split; [eapply nth_error_In; eassumption | reflexivity].
Qed.

(** The keys of a record depend on the header alone. *)
Lemma keys_make_record (header r : list jstring) :
  keys (make_record header r) = fold_left set_key header [].
Proof.
  rewrite make_record_assign, keys_fold_assign by apply length_cells.
  reflexivity.
Qed.

Lemma make_record_plain (header r : list jstring) :
  NoDup header ->
  (forall k, In k header -> plain_key k) ->
  make_record header r = combine header (cells (length header) r).
Proof.
  intros Hnd Hp. rewrite make_record_assign, fold_assign_fresh.
  - reflexivity.
  - assumption.
  - intros k Hk. split; [now apply Hp | simpl; tauto].
Qed.

Lemma make_record_In (header r : list jstring) (k v : jstring) :
  In (k, v) (make_record header r) ->
  In k header /\ (v = [] \/ exists c, In c r /\ v = trim c).
Proof.
  rewrite make_record_assign. intro H.
  apply In_fold_assign in H. destruct H as [[]|H].
  split; [eapply in_combine_l; eassumption|].
  eapply cells_In, in_combine_r; eassumption.
Qed.

End Objects.

(** ** [trim] *)

Section Trim.

Lemma trim_start_hd (s : jstring) (c : char) :
  hd_error (trim_start s) = Some c -> is_trimmable c = false.
Proof.
  induction s as [|x s IH]; simpl; [discriminate|].
  destruct (is_trimmable x) eqn:E; [exact IH|].
  simpl. intro H. now inversion H; subst.
Qed.

Lemma trim_start_suffix (s : jstring) :
  exists a, s = a ++ trim_start s /\ forallb is_trimmable a = true.
Proof.
  induction s as [|x s [a [Ha Hall]]]; simpl.
  - now exists [].
  - destruct (is_trimmable x) eqn:E.
    + exists (x :: a). simpl. rewrite E, Hall. split; [now f_equal | reflexivity].
    + now exists [].
Qed.

Lemma trim_trimmed (s : jstring) : trimmed (trim s).
Proof.
  unfold trim, trim_end, trimmed.
  set (t := trim_start s). set (w := trim_start (rev t)).
  split; intros c Hc.
  - destruct (trim_start_suffix (rev t)) as [a [Ha _]]. fold w in Ha.
    assert (Ht : t = rev w ++ rev a).
    { rewrite <- rev_app_distr, <- Ha. now rewrite rev_involutive. }
    apply (trim_start_hd s). fold t. rewrite Ht.
    destruct (rev w); [discriminate | exact Hc].
  - rewrite rev_involutive in Hc. exact (trim_start_hd _ _ Hc).
Qed.

(** [trim] removes trimmable characters from the two ends, and nothing
    else. *)
Lemma trim_ends (s : jstring) :
  exists a b, s = a ++ trim s ++ b /\
              forallb is_trimmable a = true /\ forallb is_trimmable b = true.
Proof.
  unfold trim, trim_end.
  destruct (trim_start_suffix s) as [a [Ha Hall]].
  destruct (trim_start_suffix (rev (trim_start s))) as [b [Hb Hbll]].
  exists a, (rev b). repeat split; [|assumption|].
  - rewrite <- rev_app_distr, <- Hb, rev_involutive. exact Ha.
  - rewrite forallb_forall in *. intros x Hx. apply Hbll. now apply in_rev.
Qed.

Lemma trimmed_nil : trimmed [].
Proof. split; intros c H; discriminate. Qed.

End Trim.

(** The two files define the same parser. *)
Lemma parseCSV_same (raw : jstring) :
  PlywoodSingle.parseCSV raw = PlywoodSimple.parseCSV raw.
Proof. reflexivity. Qed.

(** ** The decoder *)

(** C1: for every input string, [parseCSV] (of either file) ends its scan
    within [raw.length] iterations and returns a sequence of records, the
    same under every larger bound on the iterations; and
    in a quoted field that no later double quote closes, the scan appends
    all that is left of the input to the open field (a pair of double
    quotes as one) and ends in quoted mode at the end of the input, with
    no field or row closed on the way. *)
Theorem parseCSV_total :
  (forall raw : jstring,
      exists recs,
        PlywoodSimple.parseCSV raw = Some recs /\
        PlywoodSingle.parseCSV raw = Some recs /\
        forall extra : nat,
          PlywoodSimple.parseCSV_fuel (length raw + extra) raw = Some recs) /\
  (forall (raw : jstring) (st : scan) (f : jstring),
      inQuotes st = true ->
      i st <= length raw ->
      open_field (skipn (i st) raw) = Some f ->
      PlywoodSimple.while (length raw) raw st =
        Some {| i := length raw; cur := cur st ++ f;
                row := row st; rows := rows st; inQuotes := true |}).
Proof.
  split.
  - intro raw. destruct (parseCSV_returns raw) as [recs H].
    exists recs. split; [exact H | split; [now rewrite parseCSV_same|]].
    intro extra. now rewrite parseCSV_fuel_enough.
  - intros raw st f Hq Hi Hopen. apply while_open_field; try assumption. lia.
Qed.

Lemma parseCSV_total_witness :
  inQuotes st_open_quote = true /\
  i st_open_quote <= length ex_open_quote /\
  open_field (skipn (i st_open_quote) ex_open_quote) =
    Some (lit "x,y" ++ LF :: lit "z") /\
  PlywoodSimple.while (length ex_open_quote) ex_open_quote st_open_quote =
    Some {| i := 8; cur := lit "x,y" ++ LF :: lit "z"; row := [];
            rows := [[lit "a"]]; inQuotes := true |}.
Proof.
  split; [reflexivity | split; [simpl; lia | split; [reflexivity|]]].
  apply (proj2 parseCSV_total ex_open_quote st_open_quote
               (lit "x,y" ++ LF :: lit "z")).
  - reflexivity.
  - simpl. lia.
  - reflexivity.
Defined.

(** The whole decode of an input with a quote left open. *)
Example parseCSV_open_quote :
  PlywoodSimple.parseCSV ex_open_quote =
    Some [[(lit "a", lit "x,y" ++ LF :: lit "z")]].
Proof. reflexivity. Qed.

(** C2: inside a quoted field, two double quotes in a row add one double
    quote to the field and stay in quoted mode; a double quote that no
    double quote follows leaves quoted mode; every other character, the
    comma, the carriage return and the line feed among them, is added to
    the field as it is. The input of the specification decodes to the one
    record with [id = 1] and [note = hello, "world"<LF>line2]. *)
Theorem quoted_field :
  (forall (raw : jstring) (st : scan),
      inQuotes st = true ->
      nth_error raw (i st) = Some DQUOTE ->
      nth_error raw (i st + 1) = Some DQUOTE ->
      PlywoodSimple.body raw st =
        {| i := i st + 2; cur := cur st ++ [DQUOTE]; row := row st;
           rows := rows st; inQuotes := true |}) /\
  (forall (raw : jstring) (st : scan),
      inQuotes st = true ->
      nth_error raw (i st) = Some DQUOTE ->
      nth_error raw (i st + 1) <> Some DQUOTE ->
      PlywoodSimple.body raw st =
        {| i := i st + 1; cur := cur st; row := row st;
           rows := rows st; inQuotes := false |}) /\
  (forall (raw : jstring) (st : scan) (ch : char),
      inQuotes st = true ->
      nth_error raw (i st) = Some ch ->
      ch <> DQUOTE ->
      PlywoodSimple.body raw st =
        {| i := i st + 1; cur := cur st ++ [ch]; row := row st;
           rows := rows st; inQuotes := true |}) /\
  PlywoodSimple.parseCSV ex_note =
    Some [[(lit "id", lit "1");
           (lit "note",
            lit "hello, " ++ DQUOTE :: lit "world" ++ DQUOTE :: LF :: lit "line2")]].
Proof.
  split; [|split; [|split; [|reflexivity]]].
  - intros raw st Hq H0 H1. unfold PlywoodSimple.body, char_at_is.
    now rewrite H0, Hq, H1.
  - intros raw st Hq H0 H1. unfold PlywoodSimple.body, char_at_is.
    rewrite H0, Hq. simpl.
    destruct (nth_error raw (i st + 1)) as [x|]; [|reflexivity].
    destruct (N.eqb_spec x DQUOTE) as [->|]; [contradiction | reflexivity].
  - intros raw st ch Hq H0 Hne. unfold PlywoodSimple.body.
    rewrite H0, Hq. apply N.eqb_neq in Hne. now rewrite Hne.
Qed.

Lemma quoted_field_witness :
  PlywoodSimple.body ex_note (st_quoted 18 (lit "hello, ")) =
    st_quoted 20 (lit "hello, " ++ [DQUOTE]) /\
  PlywoodSimple.body ex_note (st_quoted 33 (lit "x")) =
    {| i := 34; cur := lit "x"; row := [lit "1"];
       rows := [[lit "id"; lit "note"]]; inQuotes := false |} /\
  PlywoodSimple.body ex_note (st_quoted 16 (lit "hello")) =
    st_quoted 17 (lit "hello,") /\
  PlywoodSimple.body ex_note (st_quoted 27 (lit "w")) =
    st_quoted 28 (lit "w" ++ [LF]).
Proof.
  destruct quoted_field as [H2 [H1 [Hc _]]].
  split; [|split; [|split]].
  - apply (H2 ex_note (st_quoted 18 (lit "hello, "))); reflexivity.
  - apply (H1 ex_note (st_quoted 33 (lit "x")));
      [reflexivity | reflexivity | discriminate].
  - apply (Hc ex_note (st_quoted 16 (lit "hello")) COMMA);
      [reflexivity | reflexivity | discriminate].
  - apply (Hc ex_note (st_quoted 27 (lit "w")) LF);
      [reflexivity | reflexivity | discriminate].
Defined.

(** C4: outside quoted fields, a carriage return that a line feed follows
    ends the row and passes over both characters; a carriage return alone
    and a line feed alone end the row and pass over one character. At the
    end of the input, a field buffer that is not empty or a row with a
    completed field is added as the last row. The input of the
    specification, which ends without a line terminator, decodes to the
    records [id = 1, category = Birch] and [id = 2, category = Oak]. *)
Theorem row_terminators :
  (forall (raw : jstring) (st : scan),
      inQuotes st = false ->
      nth_error raw (i st) = Some CR ->
      nth_error raw (i st + 1) = Some LF ->
      PlywoodSimple.body raw st =
        {| i := i st + 2; cur := []; row := [];
           rows := rows st ++ [row st ++ [cur st]]; inQuotes := false |}) /\
  (forall (raw : jstring) (st : scan),
      inQuotes st = false ->
      nth_error raw (i st) = Some CR ->
      nth_error raw (i st + 1) <> Some LF ->
      PlywoodSimple.body raw st =
        {| i := i st + 1; cur := []; row := [];
           rows := rows st ++ [row st ++ [cur st]]; inQuotes := false |}) /\
  (forall (raw : jstring) (st : scan),
      inQuotes st = false ->
      nth_error raw (i st) = Some LF ->
      PlywoodSimple.body raw st =
        {| i := i st + 1; cur := []; row := [];
           rows := rows st ++ [row st ++ [cur st]]; inQuotes := false |}) /\
  (forall st : scan,
      cur st <> [] \/ row st <> [] ->
      PlywoodSimple.flush st = rows st ++ [row st ++ [cur st]]) /\
  PlywoodSimple.parseCSV ex_birch =
    Some [ [(lit "id", lit "1"); (lit "category", lit "Birch")];
           [(lit "id", lit "2"); (lit "category", lit "Oak")] ].
Proof.
  split; [|split; [|split; [|split; [|reflexivity]]]].
  - intros raw st Hq H0 H1. unfold PlywoodSimple.body, char_at_is.
    rewrite H0, Hq, H1. simpl. f_equal. lia.
  - intros raw st Hq H0 H1. unfold PlywoodSimple.body, char_at_is.
    rewrite H0, Hq. simpl.
    destruct (nth_error raw (i st + 1)) as [x|]; [|reflexivity].
    destruct (N.eqb_spec x LF) as [->|]; [contradiction | reflexivity].
  - intros raw st Hq H0. unfold PlywoodSimple.body.
    now rewrite H0, Hq.
  - intros st H. unfold PlywoodSimple.flush.
    destruct (cur st) as [|c cs]; [|reflexivity].
    destruct (row st) as [|f fs]; [|reflexivity].
    destruct H as [H|H]; now elim H.
Qed.

Lemma row_terminators_witness :
  PlywoodSimple.body ex_crlf (st_plain 11 (lit "x")) =
    {| i := 13; cur := []; row := [];
       rows := [[lit "id"; lit "category"]; [lit "1"; lit "x"]];
       inQuotes := false |} /\
  PlywoodSimple.body ex_crlf (st_plain 20 (lit "x")) =
    {| i := 21; cur := []; row := [];
       rows := [[lit "id"; lit "category"]; [lit "1"; lit "x"]];
       inQuotes := false |} /\
  PlywoodSimple.body ex_crlf (st_plain 26 (lit "x")) =
    {| i := 27; cur := []; row := [];
       rows := [[lit "id"; lit "category"]; [lit "1"; lit "x"]];
       inQuotes := false |} /\
  PlywoodSimple.flush (st_plain 27 []) =
    [[lit "id"; lit "category"]; [lit "1"; []]].
Proof.
  destruct row_terminators as [Hcrlf [Hcr [Hlf [Hflush _]]]].
  split; [|split; [|split]].
  - apply (Hcrlf ex_crlf (st_plain 11 (lit "x"))); reflexivity.
  - apply (Hcr ex_crlf (st_plain 20 (lit "x")));
      [reflexivity | reflexivity | discriminate].
  - apply (Hlf ex_crlf (st_plain 26 (lit "x"))); reflexivity.
  - apply (Hflush (st_plain 27 [])). right. discriminate.
Defined.

(** A header with a repeated name: the second assignment overwrites the
    first, and the record has one key. *)
Lemma duplicate_header_keys :
  PlywoodSimple.scan_rows (length ex_dup_header) ex_dup_header =
    Some [[lit "a"; lit "a"]; [lit "1"; lit "2"]] /\
  PlywoodSimple.parseCSV ex_dup_header = Some [[(lit "a", lit "2")]] /\
  keys [(lit "a", lit "2")] <> map trim [lit "a"; lit "a"].
Proof. split; [reflexivity | split; [reflexivity | discriminate]]. Qed.

(** A header name that is an array index comes first in the record, and
    [__proto__] gives no key. *)
Example index_and_proto_header :
  PlywoodSimple.parseCSV (lit "b,1,__proto__" ++ LF :: lit "x,y,z") =
    Some [[(lit "1", lit "y"); (lit "b", lit "x")]].
Proof. reflexivity. Qed.

(** C3, amended: all the records of one decode have the same keys in the
    same order. When the trimmed cells of the first row are pairwise
    distinct and none of them is [__proto__] or an array index, there is
    one record per later row, each record's keys are exactly these trimmed
    cells in their order, and its values are the trimmed cells of its row
    at the same positions: the empty string at the positions past the end
    of the row, and no cell past the length of the header. *)
Theorem records_zip_header :
  (forall (raw : jstring) (recs : list obj) (rec rec' : obj),
      PlywoodSimple.parseCSV raw = Some recs ->
      In rec recs -> In rec' recs -> keys rec = keys rec') /\
  (forall (raw : jstring) (row0 : list jstring) (data : list (list jstring)),
      PlywoodSimple.scan_rows (length raw) raw = Some (row0 :: data) ->
      NoDup (map trim row0) ->
      (forall k, In k (map trim row0) -> plain_key k) ->
      PlywoodSimple.parseCSV raw =
        Some (map (fun r =>
                     combine (map trim row0)
                             (firstn (length row0) (map trim r)
                              ++ repeat [] (length row0 - length r)))
                  data)).
Proof.
  split.
  - intros raw recs rec rec'.
    unfold PlywoodSimple.parseCSV, PlywoodSimple.parseCSV_fuel.
    destruct (PlywoodSimple.scan_rows (length raw) raw) as [[|row0 data]|];
      simpl; intro H; inversion H; subst; clear H; [intros []|].
    rewrite !in_map_iff. intros [r [<- _]] [r' [<- _]].
    now rewrite !keys_make_record.
  - intros raw row0 data Hrows Hnd Hplain.
    unfold PlywoodSimple.parseCSV, PlywoodSimple.parseCSV_fuel.
    rewrite Hrows. simpl. f_equal. apply map_ext. intro r.
    rewrite (make_record_plain _ r Hnd Hplain), cells_firstn, length_map.
    reflexivity.
Qed.

Lemma records_zip_header_witness :
  keys [(lit "id", lit "1"); (lit "category", lit "Birch")] =
  keys [(lit "id", lit "2"); (lit "category", lit "Oak")] /\
  PlywoodSimple.parseCSV ex_birch =
    Some [ combine [lit "id"; lit "category"] [lit "1"; lit "Birch"];
           combine [lit "id"; lit "category"] [lit "2"; lit "Oak"] ].
Proof.
  split.
  - apply (proj1 records_zip_header ex_birch
             [ [(lit "id", lit "1"); (lit "category", lit "Birch")];
               [(lit "id", lit "2"); (lit "category", lit "Oak")] ]).
    + reflexivity.
    + left. reflexivity.
    + right. left. reflexivity.
  - apply (proj2 records_zip_header ex_birch [lit "id"; lit "category"]
             [[lit "1"; lit "Birch"]; [lit "2"; lit "Oak"]]).
    + reflexivity.
    + constructor; [simpl; intros [H|[]]; discriminate H|].
      constructor; [simpl; tauto | constructor].
    + simpl. intros k [<-|[<-|[]]]; split; (discriminate || reflexivity).
Defined.

(** The content of a quoted cell is trimmed like any other. *)
Lemma quoted_cell_is_trimmed :
  PlywoodSimple.parseCSV ex_quoted_spaces = Some [[(lit "a", lit "x")]] /\
  get_own [(lit "a", lit "x")] (lit "a") <> Some (lit "  x  ").
Proof. split; [reflexivity | discriminate]. Qed.

(** C10: the parser of PlywoodSimple.js and the parser of PlywoodSingle.js
    return the same records for every input, whatever the bound on the
    iterations. *)
Theorem parsers_agree (raw : jstring) :
  PlywoodSingle.parseCSV raw = PlywoodSimple.parseCSV raw /\
  forall fuel : nat,
    PlywoodSingle.parseCSV_fuel fuel raw = PlywoodSimple.parseCSV_fuel fuel raw.
Proof.
  split; [apply parseCSV_same|].
  intro fuel. unfold PlywoodSingle.parseCSV_fuel, PlywoodSimple.parseCSV_fuel.
  unfold PlywoodSingle.scan_rows, PlywoodSimple.scan_rows.
  assert (Hw : forall n st, PlywoodSingle.while n raw st = PlywoodSimple.while n raw st).
  { induction n as [|n IH]; intro st; simpl; [reflexivity|].
    destruct (i st <? length raw); [apply IH | reflexivity]. }
  rewrite Hw. destruct (PlywoodSimple.while fuel raw scan_init) as [st|];
    simpl; [|reflexivity].
  unfold PlywoodSingle.flush, PlywoodSimple.flush.
  destruct (negb (str_eqb (cur st) []) || (0 <? length (row st)));
    [destruct (rows st ++ [row st ++ [cur st]]) | destruct (rows st)];
    reflexivity.
Qed.

(** The empty input and an input with a header alone decode to no record. *)
Example parseCSV_empty :
  PlywoodSimple.parseCSV [] = Some [] /\
  PlywoodSimple.parseCSV (lit "a,b,c" ++ [LF]) = Some [].
Proof. split; reflexivity. Qed.

(** ** The visibility filter *)

Lemma strict_eq_string_iff (v : jsval) (s : jstring) :
  strict_eq_string v s = true <-> v = VString s.
Proof.
  destruct v as [| |x]; simpl; try (split; [discriminate | discriminate]).
  rewrite str_eqb_eq. split; congruence.
Qed.

Lemma get_visible_string (r : obj) (v : jstring) :
  get_visible r = VString v <-> get_own r (lit "visible") = Some v.
Proof.
  unfold get_visible. destruct (get_own r (lit "visible")) as [x|];
    split; intro H; inversion H; reflexivity.
Qed.

(** C9: the filter of [fetchCsv], and that of [fetchSheet], keeps a record
    if and only if the record has a field [visible] whose value is the
    empty string, [true] or [1]; a record with any other value there, or
    with no such field, is left out. *)
Theorem visible_filter (parsed : list obj) (r : obj) :
  (In r (PlywoodSimple.visible parsed) <-> In r parsed /\ shown r) /\
  (In r (PlywoodSingle.items parsed) <-> In r parsed /\ shown r) /\
  (forall v : jstring,
      get_own r (lit "visible") = Some v ->
      v <> [] -> v <> lit "true" -> v <> lit "1" ->
      ~ In r (PlywoodSimple.visible parsed) /\
      ~ In r (PlywoodSingle.items parsed)) /\
  (get_own r (lit "visible") = None ->
   ~ In r (PlywoodSimple.visible parsed) /\
   ~ In r (PlywoodSingle.items parsed)).
Proof.
  assert (H : In r (PlywoodSimple.visible parsed) <-> In r parsed /\ shown r).
  { unfold PlywoodSimple.visible, shown.
    rewrite filter_In, !orb_true_iff, !strict_eq_string_iff,
      !get_visible_string. tauto. }
  assert (H' : In r (PlywoodSingle.items parsed) <-> In r parsed /\ shown r).
  { unfold PlywoodSingle.items, shown.
    rewrite filter_In, !orb_true_iff, !strict_eq_string_iff,
      !get_visible_string. tauto. }
  split; [exact H|]. split; [exact H'|]. unfold shown in H, H'. split.
  - intros v Hv H0 H1 H2.
    split; intro Hin; [apply H in Hin | apply H' in Hin];
      destruct Hin as [_ [E|[E|E]]]; congruence.
  - intro Hn.
    split; intro Hin; [apply H in Hin | apply H' in Hin];
      destruct Hin as [_ [E|[E|E]]]; congruence.
Qed.

Lemma visible_filter_witness :
  In [(lit "id", lit "1"); (lit "visible", lit "true")]
     (PlywoodSimple.visible ex_visible) /\
  In [(lit "id", lit "4"); (lit "visible", [])]
     (PlywoodSingle.items ex_visible) /\
  ~ In [(lit "id", lit "6"); (lit "visible", lit "TRUE")]
       (PlywoodSimple.visible ex_visible) /\
  ~ In [(lit "id", lit "3")] (PlywoodSingle.items ex_visible).
Proof.
  split; [|split; [|split]].
  - apply (proj1 (visible_filter ex_visible
                    [(lit "id", lit "1"); (lit "visible", lit "true")])).
    split; [left; reflexivity | right; left; reflexivity].
  - apply (proj1 (proj2 (visible_filter ex_visible
                           [(lit "id", lit "4"); (lit "visible", [])]))).
    split; [do 3 right; left; reflexivity | left; reflexivity].
  - apply (proj1 (proj2 (proj2 (visible_filter ex_visible
             [(lit "id", lit "6"); (lit "visible", lit "TRUE")])))
             (lit "TRUE")); [reflexivity | discriminate..].
  - apply (proj2 (proj2 (proj2 (visible_filter ex_visible [(lit "id", lit "3")])))).
    reflexivity.
Defined.

(** The filter on a sample of records. *)
Example visible_filter_sample :
  map (fun r => get_own r (lit "id")) (PlywoodSimple.visible ex_visible) =
    [Some (lit "1"); Some (lit "4"); Some (lit "5")].
Proof. reflexivity. Qed.

(** ** The formatter *)

Lemma In_replace_char (c x : char) (rep s : jstring) :
  In x (replace_char c rep s) -> (In x s /\ x <> c) \/ In x rep.
Proof.
  unfold replace_char. rewrite in_flat_map. intros [y [Hy Hx]].
  destruct (N.eqb_spec y c) as [->|Hne]; [now right|].
  destruct Hx as [<-|[]]. now left.
Qed.

(** [escapeHTML] leaves no angle bracket and no quote in its result. *)
Lemma escapeHTML_no_markup (s : jstring) (x : char) :
  In x (PlywoodSimple.escapeHTML (VString s)) ->
  x <> LT /\ x <> GT /\ x <> DQUOTE /\ x <> APOS.
Proof.
  unfold PlywoodSimple.escapeHTML.
  replace (negb (truthy (VString s)) && falsy_loose_ne_zero (VString s))
    with false by (simpl; now rewrite andb_false_r).
  simpl to_string. intro H.
  repeat (apply In_replace_char in H; destruct H as [[H ?]|H]);
    try (simpl in H; repeat (destruct H as [<-|H]; [repeat split; discriminate|]);
         now destruct H).
  repeat split; assumption.
Qed.

(** C6: [formatDescriptionToHtml] returns the empty string for the empty
    string, [undefined] and [null]; for every other string the call of
    [escapeHtml], a name that nothing binds, throws a ReferenceError. *)
Theorem format_throws_on_text :
  PlywoodSimple.formatDescriptionToHtml (VString []) = Normal [] /\
  PlywoodSimple.formatDescriptionToHtml VUndefined = Normal [] /\
  PlywoodSimple.formatDescriptionToHtml VNull = Normal [] /\
  PlywoodSimple.formatDescriptionToHtml (VString (lit "a")) =
    Throw (ReferenceError "escapeHtml") /\
  forall (c : char) (s : jstring),
    PlywoodSimple.formatDescriptionToHtml (VString (c :: s)) =
      Throw (ReferenceError "escapeHtml").
Proof. repeat split. Qed.

(** C7: on [<script>] the formatter throws before it escapes anything;
    [escapeHTML], the function that is declared, escapes the angle
    brackets but writes an ampersand as [&amp;&], which leaves a bare
    ampersand in the text. *)
Theorem format_script_throws :
  PlywoodSimple.formatDescriptionToHtml (VString (lit "<script>")) =
    Throw (ReferenceError "escapeHtml") /\
  PlywoodSimple.escapeHTML (VString (lit "<script>")) = lit "&lt;script&gt;" /\
  PlywoodSimple.escapeHTML (VString (lit "&")) = lit "&amp;&".
Proof. repeat split. Qed.

(** C8: on [**bold**] the formatter throws before the first substitution;
    the second substitution has the pattern of the first, two asterisks on
    each side, and leaves a span between single asterisks as it is. *)
Theorem format_bold_throws :
  PlywoodSimple.formatDescriptionToHtml (VString (lit "**bold**")) =
    Throw (ReferenceError "escapeHtml") /\
  replace_double_star PlywoodSimple.strong_of 0 (lit "**bold**") =
    lit "<strong>bold</strong>" /\
  replace_double_star PlywoodSimple.em_of 0 (lit "*it*") = lit "*it*".
Proof. repeat split. Qed.

(** * Further properties of the decoder *)

Section ScanText.

Lemma rows_scan_text_nonempty (s : jstring) :
  forall st : scan,
    (forall r, In r (rows st) -> r <> []) ->
    forall r, In r (rows (scan_text s st)) -> r <> [].
Proof.
  assert (Hend : forall st, (forall r, In r (rows st) -> r <> []) ->
                            forall r, In r (rows (end_row st)) -> r <> []).
  { intros st H r. simpl. rewrite in_app_iff. intros [Hr|[<-|[]]].
    - now apply H.
    - now destruct (row st). }
  induction s as [|ch s' IH1 IH2] using two_step_ind; intros st Hst;
    [exact Hst|].
  simpl. destruct (inQuotes st); [destruct (N.eqb ch DQUOTE)|].
  - destruct s' as [|d s'']; [exact Hst|].
    destruct (N.eqb d DQUOTE); [apply (IH2 d s'' eq_refl) | apply IH1];
      exact Hst.
  - apply IH1. exact Hst.
  - destruct (N.eqb ch DQUOTE); [apply IH1; exact Hst|].
    destruct (N.eqb ch COMMA); [apply IH1; exact Hst|].
    destruct (N.eqb ch CR).
    + destruct s' as [|d s'']; [now apply Hend|].
      destruct (N.eqb d LF); [apply (IH2 d s'' eq_refl) | apply IH1];
        now apply Hend.
    + destruct (N.eqb ch LF); [apply IH1; now apply Hend|].
      apply IH1. exact Hst.
Qed.

Ltac count_fin :=
  cbv iota;
  repeat match goal with
         | |- context [if ?b then _ else _] => destruct b; cbv iota
         end; lia.

Lemma rows_scan_text_count (s : jstring) :
  forall st : scan,
    length (rows (scan_text s st)) <= length (rows st) + count_eol s.
Proof.
  assert (Hend : forall st, length (rows (end_row st)) = S (length (rows st))).
  { intro st0. simpl. rewrite length_app. simpl. lia. }
  assert (Hq : forall q st, rows (set_quotes q st) = rows st) by reflexivity.
  assert (Ha : forall c st, rows (add_char c st) = rows st) by reflexivity.
  assert (Hf : forall st, rows (end_field st) = rows st) by reflexivity.
  assert (Hcons : forall ch s', count_eol (ch :: s') =
            (if N.eqb ch CR || N.eqb ch LF then 1 else 0) + count_eol s').
  { intros ch s'. unfold count_eol. simpl.
    now destruct (N.eqb ch CR || N.eqb ch LF). }
  induction s as [|ch s' IH1 IH2] using two_step_ind; intros st;
    [unfold count_eol; simpl; count_fin|].
  rewrite Hcons. simpl scan_text.
  destruct (inQuotes st); [destruct (N.eqb ch DQUOTE) eqn:E1|].
  - destruct s' as [|d s'']; [rewrite Hq; count_fin|].
    destruct (N.eqb d DQUOTE) eqn:E2.
    + rewrite Hcons.
      pose proof (IH2 _ _ eq_refl (add_char DQUOTE st)) as H.
      rewrite Ha in H. count_fin.
    + pose proof (IH1 (set_quotes false st)) as H. rewrite Hq in H. count_fin.
  - pose proof (IH1 (add_char ch st)) as H. rewrite Ha in H. count_fin.
  - destruct (N.eqb ch DQUOTE) eqn:E1.
    { pose proof (IH1 (set_quotes true st)) as H. rewrite Hq in H. count_fin. }
    destruct (N.eqb ch COMMA) eqn:E2.
    { pose proof (IH1 (end_field st)) as H. rewrite Hf in H. count_fin. }
    destruct (N.eqb ch CR) eqn:E3.
    + simpl orb. destruct s' as [|d s'']; [rewrite Hend; count_fin|].
      destruct (N.eqb d LF) eqn:E4.
      * rewrite Hcons.
        pose proof (IH2 _ _ eq_refl (end_row st)) as H. rewrite Hend in H. count_fin.
      * pose proof (IH1 (end_row st)) as H. rewrite Hend in H. count_fin.
    + destruct (N.eqb ch LF) eqn:E4; simpl orb.
      * pose proof (IH1 (end_row st)) as H. rewrite Hend in H. count_fin.
      * pose proof (IH1 (add_char ch st)) as H. rewrite Ha in H. count_fin.
Qed.

Lemma scan_text_cons (ch : char) (s' : jstring) (st : scan) :
  scan_text (ch :: s') st =
  if inQuotes st then
    if N.eqb ch DQUOTE then
      match s' with
      | d :: s'' =>
          if N.eqb d DQUOTE then scan_text s'' (add_char DQUOTE st)
          else scan_text s' (set_quotes false st)
      | [] => set_quotes false st
      end
    else scan_text s' (add_char ch st)
  else if N.eqb ch DQUOTE then scan_text s' (set_quotes true st)
  else if N.eqb ch COMMA then scan_text s' (end_field st)
  else if N.eqb ch CR then
    match s' with
    | d :: s'' =>
        if N.eqb d LF then scan_text s'' (end_row st)
        else scan_text s' (end_row st)
    | [] => end_row st
    end
  else if N.eqb ch LF then scan_text s' (end_row st)
  else scan_text s' (add_char ch st).
Proof. reflexivity. Qed.

(** A line terminator read outside quotes ends the row. *)
Lemma scan_text_eol (t : jstring) (st : scan) :
  t = [LF] \/ t = [CR] \/ t = [CR; LF] ->
  inQuotes st = false ->
  scan_text t st = end_row st.
Proof.
  intros [ -> | [ -> | -> ] ] Hq; simpl; now rewrite Hq.
Qed.

Lemma scan_text_app_eol (t : jstring) :
  t = [LF] \/ t = [CR] \/ t = [CR; LF] ->
  forall (a : jstring) (st : scan),
    inQuotes (scan_text a st) = false ->
    cur (scan_text a st) <> [] \/ row (scan_text a st) <> [] ->
    scan_text (a ++ t) st = end_row (scan_text a st).
Proof.
  intros Ht a.
  assert (Hhd : exists d t', t = d :: t' /\ N.eqb d DQUOTE = false).
  { destruct Ht as [ -> | [ -> | -> ] ]; eexists; eexists; split; reflexivity. }
  destruct Hhd as [d0 [t' [Et Ed0]]].
  induction a as [|ch s' IH1 IH2] using two_step_ind; intros st Hq Hp.
  - now apply scan_text_eol.
  - change ((ch :: s') ++ t) with (ch :: (s' ++ t)).
    rewrite (scan_text_cons ch (s' ++ t)).
    rewrite (scan_text_cons ch s') in Hq, Hp |- *.
    destruct (inQuotes st) eqn:Eq; [destruct (N.eqb ch DQUOTE)|].
    + destruct s' as [|d s''].
      * simpl app. rewrite Et, Ed0, <- Et. now apply scan_text_eol.
      * change ((d :: s'') ++ t) with (d :: (s'' ++ t)). cbv beta iota.
        destruct (N.eqb d DQUOTE).
        -- now apply (IH2 d s'' eq_refl).
        -- now apply (IH1 (set_quotes false st)).
    + now apply IH1.
    + destruct (N.eqb ch DQUOTE); [now apply IH1|].
      destruct (N.eqb ch COMMA); [now apply IH1|].
      destruct (N.eqb ch CR).
      * destruct s' as [|d s''].
        -- simpl in Hp. destruct Hp as [Hp|Hp]; now elim Hp.
        -- change ((d :: s'') ++ t) with (d :: (s'' ++ t)). cbv beta iota.
           destruct (N.eqb d LF).
           ++ now apply (IH2 d s'' eq_refl).
           ++ now apply (IH1 (end_row st)).
      * destruct (N.eqb ch LF); now apply IH1.
Qed.

Lemma length_records (rs : list (list jstring)) :
  length (PlywoodSimple.records rs) = length rs - 1.
Proof.
  destruct rs as [|row0 data]; simpl; [reflexivity|].
  rewrite length_map. lia.
Qed.

End ScanText.

(** X1: every row that the scan of an input produces, the header row
    among them, has at least one field. *)
Theorem scan_rows_have_fields (raw : jstring) (rs : list (list jstring))
        (r : list jstring) :
  PlywoodSimple.scan_rows (length raw) raw = Some rs ->
  In r rs ->
  r <> [].
Proof.
  rewrite scan_rows_text. intro H. inversion H; subst; clear H.
  unfold PlywoodSimple.flush.
  destruct (negb (str_eqb (cur (scan_text raw scan_init)) [])
            || (0 <? length (row (scan_text raw scan_init)))).
  - rewrite in_app_iff. intros [Hr|[<-|[]]].
    + revert Hr. apply rows_scan_text_nonempty. intros r0 [].
    + now destruct (row (scan_text raw scan_init)).
  - apply rows_scan_text_nonempty. intros r0 [].
Qed.

Lemma scan_rows_have_fields_witness : [lit "1"; lit "Birch"] <> [].
Proof.
  apply (scan_rows_have_fields ex_birch
           [[lit "id"; lit "category"]; [lit "1"; lit "Birch"];
            [lit "2"; lit "Oak"]]).
  - reflexivity.
  - right. left. reflexivity.
Defined.

(** X2: [parseCSV] returns at most as many records as the input has
    carriage returns and line feeds; an input without any decodes to no
    record. *)
Theorem parseCSV_record_count (raw : jstring) :
  exists recs,
    PlywoodSimple.parseCSV raw = Some recs /\ length recs <= count_eol raw.
Proof.
  eexists. split; [apply parseCSV_text|].
  rewrite length_records.
  pose proof (rows_scan_text_count raw scan_init) as H. simpl in H.
  unfold PlywoodSimple.flush.
  destruct (negb (str_eqb (cur (scan_text raw scan_init)) [])
            || (0 <? length (row (scan_text raw scan_init))));
    rewrite ?length_app; simpl; lia.
Qed.

(** X3: when the scan of an input ends outside quotes with a field or a
    row under way, a line terminator (LF, CR or CR LF) added at the end
    of the input does not change the records. *)
Theorem final_terminator_optional (raw t : jstring) (st : scan) :
  t = [LF] \/ t = [CR] \/ t = [CR; LF] ->
  PlywoodSimple.while (length raw) raw scan_init = Some st ->
  inQuotes st = false ->
  cur st <> [] \/ row st <> [] ->
  PlywoodSimple.parseCSV (raw ++ t) = PlywoodSimple.parseCSV raw.
Proof.
  intros Ht Hw Hq Hp.
  rewrite while_scan_text in Hw by (simpl; lia).
  inversion Hw; subst st; clear Hw. simpl in Hq, Hp.
  rewrite !parseCSV_text, (scan_text_app_eol t Ht) by assumption.
  f_equal. f_equal. unfold PlywoodSimple.flush. simpl.
  destruct (cur (scan_text raw scan_init)) as [|c cs]; [|reflexivity].
  destruct (row (scan_text raw scan_init)) as [|f fs]; [|reflexivity].
  destruct Hp as [Hp|Hp]; now elim Hp.
Qed.

Lemma final_terminator_optional_witness :
  PlywoodSimple.parseCSV (ex_birch ++ [CR; LF]) = PlywoodSimple.parseCSV ex_birch.
Proof.
  apply (final_terminator_optional ex_birch [CR; LF]
           {| i := 25; cur := lit "Oak"; row := [lit "2"];
              rows := [[lit "id"; lit "category"]; [lit "1"; lit "Birch"]];
              inQuotes := false |}).
  - right. right. reflexivity.
  - reflexivity.
  - reflexivity.
  - left. discriminate.
Defined.

(** ** Reading back a written table *)

Section RoundTrip.

Lemma add_text_nil (st : scan) : add_text [] st = st.
Proof. apply scan_eq; simpl; try reflexivity. apply app_nil_r. Qed.

Lemma add_char_add_text (c : char) (f : jstring) (st : scan) :
  add_text f (add_char c st) = add_text (c :: f) st.
Proof. apply scan_eq; simpl; try reflexivity. now rewrite <- app_assoc. Qed.

(** The text of a quoted field and its closing quote, read in quoted
    mode. *)
Lemma scan_text_quoted (f : jstring) :
  forall (rest : jstring) (st : scan),
    inQuotes st = true ->
    (forall d rest', rest = d :: rest' -> N.eqb d DQUOTE = false) ->
    scan_text (quote_escape f ++ DQUOTE :: rest) st =
    scan_text rest (set_quotes false (add_text f st)).
Proof.
  induction f as [|c f IH]; intros rest st Hq Hrest.
  - simpl app. rewrite scan_text_cons, Hq, add_text_nil.
    change (N.eqb DQUOTE DQUOTE) with true. cbv iota.
    destruct rest as [|d rest']; [reflexivity|].
    now rewrite (Hrest d rest' eq_refl).
  - simpl quote_escape. destruct (N.eqb c DQUOTE) eqn:E.
    + apply N.eqb_eq in E. subst c. simpl app.
      rewrite scan_text_cons, Hq.
      change (N.eqb DQUOTE DQUOTE) with true. cbv iota.
      rewrite IH by assumption. now rewrite add_char_add_text.
    + simpl app. rewrite scan_text_cons, Hq, E.
      rewrite IH by assumption. now rewrite add_char_add_text.
Qed.

(** The text of a bare field, read outside quotes. *)
Lemma scan_text_bare (f : jstring) :
  forall (rest : jstring) (st : scan),
    inQuotes st = false ->
    bare f = true ->
    scan_text (f ++ rest) st = scan_text rest (add_text f st).
Proof.
  induction f as [|c f IH]; intros rest st Hq Hb.
  - now rewrite add_text_nil.
  - simpl in Hb. apply andb_true_iff in Hb. destruct Hb as [Hc Hb].
    apply negb_true_iff in Hc.
    repeat (apply orb_false_iff in Hc; destruct Hc as [Hc ?]).
    simpl app. rewrite scan_text_cons, Hq.
    replace (N.eqb c DQUOTE) with false by congruence.
    replace (N.eqb c COMMA) with false by congruence.
    replace (N.eqb c CR) with false by congruence.
    replace (N.eqb c LF) with false by congruence.
    rewrite IH by assumption. now rewrite add_char_add_text.
Qed.

Lemma scan_text_comma (s : jstring) (st : scan) :
  inQuotes st = false -> scan_text (COMMA :: s) st = scan_text s (end_field st).
Proof. intro Hq. rewrite scan_text_cons, Hq. reflexivity. Qed.

Lemma scan_text_open (s : jstring) (st : scan) :
  inQuotes st = false ->
  scan_text (DQUOTE :: s) st = scan_text s (set_quotes true st).
Proof. intro Hq. rewrite scan_text_cons, Hq. reflexivity. Qed.

Lemma scan_text_eol_rest (crlf : bool) (rest : jstring) (st : scan) :
  inQuotes st = false ->
  scan_text (eol crlf ++ rest) st = scan_text rest (end_row st).
Proof.
  intro Hq. destruct crlf; simpl app; rewrite scan_text_cons, Hq; reflexivity.
Qed.

Lemma scan_text_field (qf : bool * jstring) (rest : jstring) (st : scan) :
  inQuotes st = false ->
  field_ok qf = true ->
  (forall d rest', rest = d :: rest' -> N.eqb d DQUOTE = false) ->
  scan_text (write_field qf ++ rest) st = scan_text rest (add_text (snd qf) st).
Proof.
  intros Hq Hok Hrest.
  destruct qf as [[|] f];
    [ change (write_field (true, f)) with (DQUOTE :: quote_escape f ++ [DQUOTE])
    | change (write_field (false, f)) with f ];
    simpl snd.
  - replace ((DQUOTE :: quote_escape f ++ [DQUOTE]) ++ rest)
      with (DQUOTE :: (quote_escape f ++ DQUOTE :: rest))
      by (simpl; now rewrite <- app_assoc).
    rewrite scan_text_open by assumption.
    rewrite scan_text_quoted by (assumption || reflexivity).
    f_equal. apply scan_eq; simpl; congruence.
  - apply scan_text_bare; assumption.
Qed.

(** A written row and its terminator, read from the start of a row. *)
Lemma scan_text_row (crlf : bool) (r : list (bool * jstring)) :
  forall (rest : jstring) (st : scan),
    r <> [] ->
    forallb field_ok r = true ->
    inQuotes st = false ->
    cur st = [] ->
    scan_text (write_row r ++ eol crlf ++ rest) st =
    scan_text rest
              {| i := i st; cur := []; row := [];
                 rows := rows st ++ [row st ++ map snd r];
                 inQuotes := false |}.
Proof.
  induction r as [|qf r IH]; intros rest st Hne Hok Hq Hcur;
    [now elim Hne|].
  simpl in Hok. apply andb_true_iff in Hok. destruct Hok as [Hqf Hok].
  destruct r as [|qf' r'].
  - simpl write_row. rewrite scan_text_field; try assumption.
    + rewrite scan_text_eol_rest by exact Hq.
      f_equal. apply scan_eq; simpl; rewrite ?Hcur; reflexivity.
    + destruct crlf; intros d rest' E; inversion E; reflexivity.
  - replace (write_row (qf :: qf' :: r') ++ eol crlf ++ rest)
      with (write_field qf ++
            COMMA :: (write_row (qf' :: r') ++ eol crlf ++ rest))
      by (simpl write_row; now rewrite <- app_assoc).
    rewrite scan_text_field; try assumption.
    + rewrite scan_text_comma by exact Hq.
      rewrite IH; try assumption; try reflexivity; [|discriminate].
      f_equal. apply scan_eq; simpl; try reflexivity.
      rewrite Hcur. simpl. now rewrite <- app_assoc.
    + intros d rest' E. inversion E. reflexivity.
Qed.

Lemma table_ok_cons (r : list (bool * jstring)) (t : list (list (bool * jstring))) :
  table_ok (r :: t) = true ->
  r <> [] /\ forallb field_ok r = true /\ table_ok t = true.
Proof.
  unfold table_ok. simpl. rewrite andb_true_iff. intros [Hr Ht].
  destruct r; [discriminate|]. repeat split; [discriminate | assumption..].
Qed.

Lemma scan_text_table (crlf : bool) (t : list (list (bool * jstring))) :
  forall st : scan,
    table_ok t = true ->
    inQuotes st = false -> cur st = [] -> row st = [] ->
    scan_text (write_table crlf t) st =
    {| i := i st; cur := []; row := [];
       rows := rows st ++ map (map snd) t; inQuotes := false |}.
Proof.
  induction t as [|r t IH]; intros st Hok Hq Hcur Hrow.
  - simpl. apply scan_eq; simpl; try congruence. now rewrite app_nil_r.
  - apply table_ok_cons in Hok. destruct Hok as [Hne [Hr Ht]].
    unfold write_table. simpl flat_map. fold (write_table crlf t).
    rewrite <- app_assoc, scan_text_row by assumption.
    rewrite IH by (assumption || reflexivity).
    apply scan_eq; simpl; try reflexivity.
    rewrite Hrow. simpl. now rewrite <- app_assoc.
Qed.

Lemma written_table_rows (crlf : bool) (t : list (list (bool * jstring))) :
  table_ok t = true ->
  PlywoodSimple.flush (scan_text (write_table crlf t) scan_init) =
  map (map snd) t.
Proof.
  intro Hok. rewrite scan_text_table by (assumption || reflexivity).
  reflexivity.
Qed.

End RoundTrip.

(** X4: a table written as text - every field bare or quoted with its
    double quotes doubled, the bare ones free of double quote, comma, CR
    and LF, the fields joined by commas and each row ended by LF or by
    CR LF - is read back by the scan field for field, and [parseCSV]
    returns the records of its rows under its first row. *)
Theorem written_table_read_back (crlf : bool)
        (t : list (list (bool * jstring))) :
  table_ok t = true ->
  PlywoodSimple.scan_rows (length (write_table crlf t)) (write_table crlf t) =
    Some (map (map snd) t) /\
  PlywoodSimple.parseCSV (write_table crlf t) =
    Some (PlywoodSimple.records (map (map snd) t)).
Proof.
  intro Hok. pose proof (written_table_rows crlf t Hok) as H.
  split.
  - now rewrite scan_rows_text, H.
  - now rewrite parseCSV_text, H.
Qed.

Lemma written_table_read_back_witness :
  PlywoodSimple.scan_rows (length (write_table true ex_table))
                          (write_table true ex_table) =
    Some (map (map snd) ex_table) /\
  PlywoodSimple.parseCSV (write_table true ex_table) =
    Some (PlywoodSimple.records (map (map snd) ex_table)).
Proof. apply (written_table_read_back true ex_table). reflexivity. Defined.

(** ** The fields of a record *)

Section Lookup.

Lemma get_own_overwrite_same (o : obj) (k v : jstring) :
  In k (keys o) -> get_own (overwrite o k v) k = Some v.
Proof.
  induction o as [|[k' v'] o IH]; simpl; [tauto|].
  destruct (str_eqb k' k) eqn:E; simpl; rewrite E; [reflexivity|].
  intros [H|H]; [|now apply IH].
  subst k'. now rewrite str_eqb_refl in E.
Qed.

Lemma get_own_overwrite_other (o : obj) (k v k' : jstring) :
  k' <> k -> get_own (overwrite o k v) k' = get_own o k'.
Proof.
  intro Hne. induction o as [|[k0 v0] o IH]; simpl; [reflexivity|].
  destruct (str_eqb k0 k) eqn:E; simpl.
  - apply str_eqb_eq in E. subst k0.
    destruct (str_eqb k k') eqn:E'; [|reflexivity].
    apply str_eqb_eq in E'. congruence.
  - destruct (str_eqb k0 k'); [reflexivity | exact IH].
Qed.

Lemma get_own_absent (o : obj) (k : jstring) :
  ~ In k (keys o) -> get_own o k = None.
Proof.
  induction o as [|[k' v'] o IH]; simpl; [reflexivity|].
  intro H. destruct (str_eqb k' k) eqn:E.
  - apply str_eqb_eq in E. tauto.
  - apply IH. tauto.
Qed.

Lemma get_own_insert_index_same (o : obj) (n : N) (k v : jstring) :
  ~ In k (keys o) -> get_own (insert_index o n k v) k = Some v.
Proof.
  induction o as [|[k' v'] o IH]; simpl; intro H.
  - now rewrite str_eqb_refl.
  - assert (E : str_eqb k' k = false) by (apply str_eqb_neq; tauto).
    destruct (array_index k') as [m|]; [destruct (N.ltb m n)|]; simpl;
      rewrite ?E, ?str_eqb_refl; try reflexivity.
    apply IH. tauto.
Qed.

Lemma get_own_insert_index_other (o : obj) (n : N) (k v k' : jstring) :
  k' <> k -> get_own (insert_index o n k v) k' = get_own o k'.
Proof.
  intro Hne. assert (E : str_eqb k k' = false) by (apply str_eqb_neq; congruence).
  induction o as [|[k0 v0] o IH]; simpl; [now rewrite E|].
  destruct (array_index k0) as [m|]; [destruct (N.ltb m n)|]; simpl;
    rewrite ?E; try reflexivity.
  destruct (str_eqb k0 k'); [reflexivity | exact IH].
Qed.

Lemma get_own_app (o o' : obj) (k : jstring) :
  get_own (o ++ o') k =
  match get_own o k with Some v => Some v | None => get_own o' k end.
Proof.
  induction o as [|[k' v'] o IH]; simpl; [reflexivity|].
  destruct (str_eqb k' k); [reflexivity | exact IH].
Qed.

(** The field just assigned reads back, and the other fields are as they
    were. *)
Lemma get_own_obj_set (o : obj) (k v k' : jstring) :
  k <> PROTO ->
  get_own (obj_set o k v) k' =
  if str_eqb k k' then Some v else get_own o k'.
Proof.
  intro Hp. apply str_eqb_neq in Hp. unfold obj_set. rewrite Hp.
  destruct (str_eqb k k') eqn:E.
  - apply str_eqb_eq in E. subst k'.
    destruct (has_key o k) eqn:Hk.
    + apply get_own_overwrite_same. now apply has_key_In.
    + assert (Hn : ~ In k (keys o)).
      { rewrite <- has_key_In. congruence. }
      destruct (array_index k) as [n|].
      * now apply get_own_insert_index_same.
      * rewrite get_own_app, (get_own_absent _ _ Hn). simpl.
        now rewrite str_eqb_refl.
  - assert (Hne : k' <> k) by (apply str_eqb_neq in E; congruence).
    destruct (has_key o k); [now apply get_own_overwrite_other|].
    destruct (array_index k) as [n|]; [now apply get_own_insert_index_other|].
    rewrite get_own_app. simpl. rewrite E. now destruct (get_own o k').
Qed.

Lemma get_own_fold_assign (k : jstring) (kvs : list (jstring * jstring)) :
  forall acc : obj,
    k <> PROTO ->
    get_own (fold_left assign kvs acc) k = last_value k kvs (get_own acc k).
Proof.
  unfold last_value.
  induction kvs as [|[k0 v0] kvs IH]; intros acc Hk; simpl; [reflexivity|].
  rewrite IH by assumption. f_equal. unfold assign. simpl.
  destruct (str_eqb k0 PROTO) eqn:E.
  - apply str_eqb_eq in E. subst k0. unfold obj_set. rewrite str_eqb_refl.
    assert (E' : str_eqb PROTO k = false) by (apply str_eqb_neq; congruence).
    now rewrite E'.
  - apply get_own_obj_set. now apply str_eqb_neq.
Qed.

Lemma get_own_fold_assign_proto (kvs : list (jstring * jstring)) :
  forall acc : obj,
    get_own acc PROTO = None ->
    get_own (fold_left assign kvs acc) PROTO = None.
Proof.
  induction kvs as [|[k0 v0] kvs IH]; intros acc Hacc; simpl; [exact Hacc|].
  apply IH. unfold assign. simpl.
  destruct (str_eqb k0 PROTO) eqn:E.
  - unfold obj_set. now rewrite E.
  - rewrite get_own_obj_set by now apply str_eqb_neq. now rewrite E.
Qed.

Lemma last_value_absent (k : jstring) (kvs : list (jstring * jstring))
      (init : option jstring) :
  ~ In k (map fst kvs) -> last_value k kvs init = init.
Proof.
  unfold last_value. revert init.
  induction kvs as [|[k0 v0] kvs IH]; intros init H; simpl; [reflexivity|].
  simpl in H. rewrite IH by tauto.
  assert (E : str_eqb k0 k = false) by (apply str_eqb_neq; tauto).
  now rewrite E.
Qed.

Lemma last_value_nth (k v : jstring) (kvs : list (jstring * jstring)) :
  forall (j : nat) (init : option jstring),
    nth_error kvs j = Some (k, v) ->
    (forall j' v', j < j' -> nth_error kvs j' <> Some (k, v')) ->
    last_value k kvs init = Some v.
Proof.
  unfold last_value.
  induction kvs as [|[k0 v0] kvs IH]; intros [|j] init Hj Hlast;
    simpl in *; try discriminate.
  - inversion Hj; subst. rewrite str_eqb_refl.
    apply (last_value_absent k kvs (Some v)).
    rewrite in_map_iff. intros [[k1 v1] [Hk Hin]]. simpl in Hk. subst k1.
    apply In_nth_error in Hin. destruct Hin as [n Hn].
    apply (Hlast (S n) v1); [lia | exact Hn].
  - apply (IH j); [exact Hj|].
    intros j' v' Hlt. apply (Hlast (S j') v'). lia.
Qed.

Lemma nth_error_combine (ks vs : list jstring) :
  forall (j : nat) (k v : jstring),
    nth_error (combine ks vs) j = Some (k, v) <->
    nth_error ks j = Some k /\ nth_error vs j = Some v.
Proof.
  revert vs. induction ks as [|k0 ks IH]; intros vs j k v.
  - simpl. destruct j; simpl; split; try discriminate; intros [H _];
      discriminate.
  - destruct vs as [|v0 vs]; simpl.
    + destruct j; simpl; split; try discriminate; intros [_ H]; discriminate.
    + destruct j as [|j]; simpl; [|apply IH].
      split; [intro H; inversion H; tauto | intros [H1 H2]; congruence].
Qed.

Lemma nth_error_cells (n : nat) (r : list jstring) (j : nat) :
  j < n -> nth_error (cells n r) j = Some (cell r j).
Proof.
  intro H. unfold cells. rewrite nth_error_map, nth_error_seq.
  apply Nat.ltb_lt in H. now rewrite H.
Qed.

End Lookup.

Lemma make_record_get_last (header r : list jstring) (k : jstring) (j : nat) :
  nth_error header j = Some k ->
  k <> PROTO ->
  (forall j', j < j' -> nth_error header j' <> Some k) ->
  get_own (make_record header r) k = Some (cell r j).
Proof.
  rewrite make_record_assign.
  intros Hj Hk Hlast. rewrite get_own_fold_assign by assumption.
  apply (last_value_nth k (cell r j) _ j).
  - apply nth_error_combine. split; [exact Hj|].
    apply nth_error_cells. apply nth_error_Some. congruence.
  - intros j' v' Hlt H. apply nth_error_combine in H.
    now apply (Hlast j' Hlt).
Qed.

Lemma make_record_get_none (header r : list jstring) (k : jstring) :
  ~ In k header \/ k = PROTO -> get_own (make_record header r) k = None.
Proof.
  rewrite make_record_assign. intros [Hk| ->].
  - destruct (list_eq_dec N.eq_dec k PROTO) as [->|Hp].
    + now apply get_own_fold_assign_proto.
    + rewrite get_own_fold_assign by assumption.
      apply last_value_absent. intro H. apply Hk.
      apply in_map_iff in H. destruct H as [[k1 v1] [E Hin]].
      simpl in E. subst k1. eapply in_combine_l. eassumption.
  - now apply get_own_fold_assign_proto.
Qed.

(** X5: in a record, the field named by a header cell other than
    [__proto__] holds the trimmed cell of the row at the last position
    where the header has that name (the empty string past the end of the
    row); a name that the header lacks, and [__proto__], name no field. *)
Theorem record_field_lookup (header r : list jstring) (k : jstring) :
  (forall j : nat,
      nth_error header j = Some k ->
      k <> PROTO ->
      (forall j', j < j' -> nth_error header j' <> Some k) ->
      get_own (make_record header r) k = Some (cell r j)) /\
  (~ In k header \/ k = PROTO -> get_own (make_record header r) k = None).
Proof.
  split.
  - intro j. apply make_record_get_last.
  - apply make_record_get_none.
Qed.

Lemma record_field_lookup_witness :
  get_own (make_record [lit "a"; lit "b"; lit "a"] [lit "1"; lit "2"; lit " 3 "])
          (lit "a") = Some (lit "3") /\
  get_own (make_record [lit "a"; lit "b"; lit "a"] [lit "1"; lit "2"; lit " 3 "])
          (lit "c") = None.
Proof.
  pose proof (record_field_lookup [lit "a"; lit "b"; lit "a"]
                [lit "1"; lit "2"; lit " 3 "] (lit "a")) as Ha.
  pose proof (record_field_lookup [lit "a"; lit "b"; lit "a"]
                [lit "1"; lit "2"; lit " 3 "] (lit "c")) as Hc.
  split.
  - apply (proj1 Ha 2).
    + reflexivity.
    + discriminate.
    + intros [|[|[|j']]] Hlt; try lia; simpl; destruct j'; discriminate.
  - apply (proj2 Hc). left. simpl. intros [H|[H|[H|[]]]]; discriminate.
Defined.

Section Keys.

Lemma In_insert_index_key (ks : list jstring) (n : N) (k x : jstring) :
  In x (insert_index_key ks n k) <-> x = k \/ In x ks.
Proof.
  induction ks as [|k' ks IH]; simpl.
  - intuition congruence.
  - destruct (array_index k') as [m|]; [destruct (N.ltb m n)|]; simpl;
      rewrite ?IH; intuition congruence.
Qed.

Lemma NoDup_insert_index_key (ks : list jstring) (n : N) (k : jstring) :
  NoDup ks -> ~ In k ks -> NoDup (insert_index_key ks n k).
Proof.
  induction ks as [|k' ks IH]; simpl; intros Hnd Hk.
  - constructor; [tauto | constructor].
  - inversion Hnd as [|? ? Hn Hnd']; subst.
    destruct (array_index k') as [m|]; [destruct (N.ltb m n)|];
      try (constructor; [simpl; tauto | assumption]).
    constructor; [|apply IH; tauto].
    rewrite In_insert_index_key. intros [E|H]; [subst; tauto | tauto].
Qed.

Lemma existsb_str_eqb (ks : list jstring) (k : jstring) :
  existsb (fun k' => str_eqb k' k) ks = true <-> In k ks.
Proof.
  rewrite existsb_exists. split.
  - intros [x [Hx E]]. apply str_eqb_eq in E. now subst.
  - intro H. exists k. split; [exact H | apply str_eqb_refl].
Qed.

Lemma In_set_key (ks : list jstring) (k x : jstring) :
  In x (set_key ks k) <-> In x ks \/ (x = k /\ k <> PROTO).
Proof.
  unfold set_key. destruct (str_eqb k PROTO) eqn:Ep.
  - apply str_eqb_eq in Ep. subst k. tauto.
  - apply str_eqb_neq in Ep.
    destruct (existsb _ ks) eqn:Ee.
    + apply existsb_str_eqb in Ee. split; [tauto|].
      intros [H|[-> _]]; assumption.
    + destruct (array_index k) as [n|].
      * rewrite In_insert_index_key. tauto.
      * rewrite in_app_iff. simpl. intuition congruence.
Qed.

Lemma NoDup_set_key (ks : list jstring) (k : jstring) :
  NoDup ks -> NoDup (set_key ks k).
Proof.
  intro Hnd. unfold set_key. destruct (str_eqb k PROTO); [exact Hnd|].
  destruct (existsb _ ks) eqn:Ee; [exact Hnd|].
  assert (Hk : ~ In k ks).
  { rewrite <- existsb_str_eqb. congruence. }
  destruct (array_index k) as [n|].
  - now apply NoDup_insert_index_key.
  - apply NoDup_app; [exact Hnd | constructor; [tauto | constructor] |].
    intros x Hx [<-|[]]. contradiction.
Qed.

Lemma fold_set_key (hs : list jstring) :
  forall ks : list jstring,
    NoDup ks ->
    NoDup (fold_left set_key hs ks) /\
    forall x, In x (fold_left set_key hs ks) <->
              In x ks \/ (In x hs /\ x <> PROTO).
Proof.
  induction hs as [|h hs IH]; intros ks Hnd; simpl.
  - split; [exact Hnd | tauto].
  - destruct (IH (set_key ks h) (NoDup_set_key _ _ Hnd)) as [H1 H2].
    split; [exact H1|]. intro x. rewrite H2, In_set_key.
    intuition congruence.
Qed.

End Keys.

(** X6: the keys of a record are pairwise distinct, and they are exactly
    the header names other than [__proto__], whatever the row. *)
Theorem record_keys (header r : list jstring) :
  NoDup (keys (make_record header r)) /\
  forall k, In k (keys (make_record header r)) <->
            In k header /\ k <> PROTO.
Proof.
  rewrite keys_make_record.
  destruct (fold_set_key header [] (NoDup_nil _)) as [H1 H2].
  split; [exact H1|]. intro k. rewrite H2. simpl. tauto.
Qed.

Section Shown.

Lemma filter_map_comm {A B : Type} (p : B -> bool) (f : A -> B) (l : list A) :
  filter p (map f l) = map f (filter (fun x => p (f x)) l).
Proof.
  induction l as [|x l IH]; simpl; [reflexivity|].
  destruct (p (f x)); simpl; now rewrite IH.
Qed.

Lemma visible_items (parsed : list obj) :
  PlywoodSingle.items parsed = PlywoodSimple.visible parsed.
Proof. reflexivity. Qed.

End Shown.

(** X7: when no header cell trims to [visible], [fetchCsv] and
    [fetchSheet] display no record of the decode. *)
Theorem no_visible_column_hides_all (raw : jstring) (row0 : list jstring)
        (data : list (list jstring)) :
  PlywoodSimple.scan_rows (length raw) raw = Some (row0 :: data) ->
  ~ In (lit "visible") (map trim row0) ->
  exists recs,
    PlywoodSimple.parseCSV raw = Some recs /\
    PlywoodSimple.visible recs = [] /\
    PlywoodSingle.items recs = [].
Proof.
  intros Hrows Hno. exists (map (make_record (map trim row0)) data).
  assert (Hv : PlywoodSimple.visible (map (make_record (map trim row0)) data)
               = []).
  { unfold PlywoodSimple.visible. rewrite filter_map_comm.
    replace (filter _ data) with (@nil (list jstring)); [reflexivity|].
    symmetry. clear Hrows. induction data as [|r data IH]; [reflexivity|].
    simpl. unfold get_visible.
    rewrite (make_record_get_none (map trim row0) r (lit "visible"))
      by (left; exact Hno).
    simpl. exact IH. }
  split; [|split; [exact Hv | rewrite visible_items; exact Hv]].
  unfold PlywoodSimple.parseCSV, PlywoodSimple.parseCSV_fuel.
  rewrite Hrows. reflexivity.
Qed.

(** X8: when the header has a cell that trims to [visible], last at
    position [j], the records displayed are those of the data rows whose
    cell at [j] trims to the empty string, [true] or [1], in the order of
    the rows; a row that ends before [j] is displayed. *)
Theorem visible_column_selects (raw : jstring) (row0 : list jstring)
        (data : list (list jstring)) (j : nat) :
  PlywoodSimple.scan_rows (length raw) raw = Some (row0 :: data) ->
  nth_error (map trim row0) j = Some (lit "visible") ->
  (forall j', j < j' -> nth_error (map trim row0) j' <> Some (lit "visible")) ->
  exists recs,
    PlywoodSimple.parseCSV raw = Some recs /\
    PlywoodSimple.visible recs =
      map (make_record (map trim row0))
          (filter (fun r => cell_shows (cell r j)) data).
Proof.
  intros Hrows Hj Hlast. eexists. split.
  - unfold PlywoodSimple.parseCSV, PlywoodSimple.parseCSV_fuel.
    rewrite Hrows. reflexivity.
  - simpl. unfold PlywoodSimple.visible. rewrite filter_map_comm.
    f_equal. apply filter_ext. intro r. unfold get_visible.
    rewrite (make_record_get_last (map trim row0) r (lit "visible") j
                                  Hj ltac:(discriminate) Hlast).
    reflexivity.
Qed.

Lemma no_visible_column_hides_all_witness :
  exists recs,
    PlywoodSimple.parseCSV ex_birch = Some recs /\
    PlywoodSimple.visible recs = [] /\
    PlywoodSingle.items recs = [].
Proof.
  apply (no_visible_column_hides_all ex_birch [lit "id"; lit "category"]
           [[lit "1"; lit "Birch"]; [lit "2"; lit "Oak"]]).
  - reflexivity.
  - simpl. intros [H|[H|[]]]; discriminate.
Defined.

(** ** The escaping function *)

Section Escape.

Lemma flat_map_flat_map {A B C : Type} (f : A -> list B) (g : B -> list C)
      (l : list A) :
  flat_map g (flat_map f l) = flat_map (fun x => flat_map g (f x)) l.
Proof.
  induction l as [|x l IH]; simpl; [reflexivity|].
  now rewrite flat_map_app, IH.
Qed.

Lemma escape_char_passes (c : char) :
  replace_char APOS (lit "&#39;")
    (replace_char DQUOTE (lit "&quot;")
       (replace_char GT (lit "&gt;")
          (replace_char LT (lit "&lt;")
             (replace_char AMP (lit "&amp;&") [c])))) = escape_char c.
Proof.
  unfold escape_char.
  destruct (N.eqb_spec c AMP) as [->|H1]; [reflexivity|].
  destruct (N.eqb_spec c LT) as [->|H2]; [reflexivity|].
  destruct (N.eqb_spec c GT) as [->|H3]; [reflexivity|].
  destruct (N.eqb_spec c DQUOTE) as [->|H4]; [reflexivity|].
  destruct (N.eqb_spec c APOS) as [->|H5]; [reflexivity|].
  apply N.eqb_neq in H1, H2, H3, H4, H5.
  unfold replace_char. simpl. rewrite H1. simpl. rewrite H2. simpl.
  rewrite H3. simpl. rewrite H4. simpl. now rewrite H5.
Qed.

Lemma escapeHTML_string (s : jstring) :
  PlywoodSimple.escapeHTML (VString s) =
  replace_char APOS (lit "&#39;")
    (replace_char DQUOTE (lit "&quot;")
       (replace_char GT (lit "&gt;")
          (replace_char LT (lit "&lt;")
             (replace_char AMP (lit "&amp;&") s)))).
Proof.
  unfold PlywoodSimple.escapeHTML. simpl. now rewrite andb_false_r.
Qed.

Lemma replace_char_app (c : char) (rep a b : jstring) :
  replace_char c rep (a ++ b) = replace_char c rep a ++ replace_char c rep b.
Proof. apply flat_map_app. Qed.

Lemma length_escape_char (c : char) :
  1 <= length (escape_char c) /\
  (length (escape_char c) = 1 <-> markup_char c = false).
Proof.
  unfold escape_char, markup_char.
  destruct (N.eqb c AMP); [simpl; split; [lia | split; [lia | discriminate]]|].
  destruct (N.eqb c LT); [simpl; split; [lia | split; [lia | discriminate]]|].
  destruct (N.eqb c GT); [simpl; split; [lia | split; [lia | discriminate]]|].
  destruct (N.eqb c DQUOTE); [simpl; split; [lia | split; [lia | discriminate]]|].
  destruct (N.eqb c APOS); [simpl; split; [lia | split; [lia | discriminate]]|].
  simpl. split; [lia | split; reflexivity].
Qed.

Lemma escape_char_plain (c : char) :
  markup_char c = false -> escape_char c = [c].
Proof.
  unfold escape_char, markup_char. intro Hm.
  repeat (apply orb_false_iff in Hm; destruct Hm as [Hm ?]).
  replace (N.eqb c AMP) with false by congruence.
  replace (N.eqb c LT) with false by congruence.
  replace (N.eqb c GT) with false by congruence.
  replace (N.eqb c DQUOTE) with false by congruence.
  replace (N.eqb c APOS) with false by congruence.
  reflexivity.
Qed.

Lemma escapeHTML_flat_map (u : jstring) :
  PlywoodSimple.escapeHTML (VString u) = flat_map escape_char u.
Proof.
  rewrite escapeHTML_string.
  induction u as [|c u IH]; [reflexivity|].
  change (c :: u) with ([c] ++ u).
  rewrite !replace_char_app, IH, escape_char_passes. reflexivity.
Qed.

End Escape.

(** X9: [escapeHTML] rewrites a string character by character, the five
    replacements not touching one another's output: the result is the
    concatenation of what it writes for each character, so the escape of
    a concatenation is the concatenation of the escapes. *)
Theorem escapeHTML_char_by_char (s t : jstring) :
  PlywoodSimple.escapeHTML (VString s) = flat_map escape_char s /\
  PlywoodSimple.escapeHTML (VString (s ++ t)) =
    PlywoodSimple.escapeHTML (VString s) ++ PlywoodSimple.escapeHTML (VString t).
Proof.
  split; [apply escapeHTML_flat_map|].
  rewrite !escapeHTML_flat_map. apply flat_map_app.
Qed.

(** X10: [escapeHTML] never shortens a string, and it returns the string
    unchanged exactly when none of its characters is an ampersand, an
    angle bracket, a double quote or an apostrophe. *)
Theorem escapeHTML_fixed_points (s : jstring) :
  length s <= length (PlywoodSimple.escapeHTML (VString s)) /\
  (PlywoodSimple.escapeHTML (VString s) = s <->
   forallb (fun c => negb (markup_char c)) s = true).
Proof.
  rewrite escapeHTML_flat_map.
  assert (Hlen : forall u, length u <= length (flat_map escape_char u)).
  { induction u as [|c u IH]; simpl; [lia|].
    rewrite length_app. pose proof (proj1 (length_escape_char c)). lia. }
  split; [apply Hlen|].
  induction s as [|c s IH]; simpl; [tauto|].
  rewrite andb_true_iff, negb_true_iff, <- IH. split.
  - intro Heq.
    assert (Hl : length (escape_char c) + length (flat_map escape_char s)
                 = S (length s)).
    { rewrite <- length_app, Heq. reflexivity. }
    pose proof (Hlen s). pose proof (length_escape_char c) as [H1 H2].
    assert (Hc : length (escape_char c) = 1) by lia.
    assert (Hm : markup_char c = false) by now apply H2.
    split; [exact Hm|].
    rewrite (escape_char_plain c Hm) in Heq. simpl in Heq. congruence.
  - intros [Hm Hs]. rewrite Hs, (escape_char_plain c Hm). reflexivity.
Qed.

(** X11: no angle bracket, double quote or apostrophe is left in what
    [escapeHTML] returns for a string. *)
Theorem escapeHTML_leaves_no_markup (s : jstring) :
  forallb (fun x => negb (N.eqb x LT || N.eqb x GT || N.eqb x DQUOTE
                          || N.eqb x APOS))
          (PlywoodSimple.escapeHTML (VString s)) = true.
Proof.
  apply forallb_forall. intros x Hx.
  destruct (escapeHTML_no_markup s x Hx) as [H1 [H2 [H3 H4]]].
  apply N.eqb_neq in H1, H2, H3, H4. now rewrite H1, H2, H3, H4.
Qed.

(** ** The substitutions of the formatter *)

Section Substitutions.

Variable f : jstring -> jstring.

Lemma replace_double_star_star_free (pre s : jstring) :
  star_free pre = true ->
  replace_double_star f 0 (pre ++ s) = pre ++ replace_double_star f 0 s.
Proof.
  induction pre as [|c pre IH]; intro H; [reflexivity|].
  simpl in H. apply andb_true_iff in H. destruct H as [Hc H].
  apply negb_true_iff in Hc.
  change ((c :: pre) ++ s) with (c :: (pre ++ s)).
  change (replace_double_star f 0 (c :: (pre ++ s)))
    with (match match_double_star (c :: (pre ++ s)) with
          | Some p1 => f p1 ++ replace_double_star f (length p1 + 3) (pre ++ s)
          | None => c :: replace_double_star f 0 (pre ++ s)
          end).
  assert (Hm : match_double_star (c :: (pre ++ s)) = None).
  { unfold match_double_star. destruct (pre ++ s); [reflexivity|].
    now rewrite Hc. }
  rewrite Hm, IH by assumption. reflexivity.
Qed.

Lemma lazy_group_span (x post : jstring) :
  x <> [] ->
  plain_text x = true ->
  lazy_group (x ++ STAR :: STAR :: post) = Some x.
Proof.
  induction x as [|c x IH]; intros Hne Hx; [now elim Hne|].
  simpl in Hx. apply andb_true_iff in Hx. destruct Hx as [Hc Hx].
  apply negb_true_iff, orb_false_iff in Hc. destruct Hc as [_ Hlt].
  simpl. rewrite Hlt. destruct x as [|c' x'].
  - reflexivity.
  - assert (Hc' : N.eqb c' STAR = false).
    { simpl in Hx. apply andb_true_iff in Hx. destruct Hx as [Hx _].
      apply negb_true_iff, orb_false_iff in Hx. tauto. }
    change (starts_with_stars ((c' :: x') ++ STAR :: STAR :: post))
      with (match x' ++ STAR :: STAR :: post with
            | b :: _ => N.eqb c' STAR && N.eqb b STAR
            | [] => false
            end).
    rewrite Hc'. simpl andb.
    replace (match x' ++ STAR :: STAR :: post with
             | [] => false
             | _ :: _ => false
             end) with false by (now destruct (x' ++ STAR :: STAR :: post)).
    rewrite IH by (assumption || discriminate). reflexivity.
Qed.

Lemma replace_double_star_skip (s1 s2 : jstring) :
  replace_double_star f (length s1) (s1 ++ s2) = replace_double_star f 0 s2.
Proof. induction s1 as [|c s1 IH]; [reflexivity | exact IH]. Qed.

Lemma replace_double_star_span (pre x post : jstring) :
  star_free pre = true ->
  x <> [] ->
  plain_text x = true ->
  replace_double_star f 0 (pre ++ lit "**" ++ x ++ lit "**" ++ post) =
  pre ++ f x ++ replace_double_star f 0 post.
Proof.
  intros Hpre Hne Hx. rewrite replace_double_star_star_free by assumption.
  f_equal.
  change (lit "**" ++ x ++ lit "**" ++ post)
    with (STAR :: STAR :: (x ++ STAR :: STAR :: post)).
  change (replace_double_star f 0 (STAR :: STAR :: (x ++ STAR :: STAR :: post)))
    with (match match_double_star (STAR :: STAR :: (x ++ STAR :: STAR :: post)) with
          | Some p1 =>
              f p1 ++ replace_double_star f (length p1 + 3)
                                          (STAR :: (x ++ STAR :: STAR :: post))
          | None =>
              STAR :: replace_double_star f 0
                                          (STAR :: (x ++ STAR :: STAR :: post))
          end).
  change (match_double_star (STAR :: STAR :: (x ++ STAR :: STAR :: post)))
    with (lazy_group (x ++ STAR :: STAR :: post)).
  rewrite lazy_group_span by assumption. f_equal.
  replace (STAR :: (x ++ STAR :: STAR :: post))
    with ((STAR :: x ++ [STAR; STAR]) ++ post)
    by (simpl; now rewrite <- app_assoc).
  replace (length x + 3) with (length (STAR :: x ++ [STAR; STAR]))
    by (simpl; rewrite length_app; simpl; lia).
  apply replace_double_star_skip.
Qed.

End Substitutions.

(** X12: the first substitution of the formatter, on a text that has
    before a span [**x**] no asterisk, with [x] not empty and free of
    asterisks and line terminators, keeps what precedes the span, writes
    [<strong>x</strong>] for it and goes on after it. *)
Theorem strong_span_wrapped (pre x post : jstring) :
  star_free pre = true ->
  x <> [] ->
  plain_text x = true ->
  replace_double_star PlywoodSimple.strong_of 0
                      (pre ++ lit "**" ++ x ++ lit "**" ++ post) =
  pre ++ lit "<strong>" ++ x ++ lit "</strong>"
      ++ replace_double_star PlywoodSimple.strong_of 0 post.
Proof.
  intros Hpre Hne Hx.
  rewrite replace_double_star_span by assumption.
  unfold PlywoodSimple.strong_of. now rewrite <- !app_assoc.
Qed.

Lemma strong_span_wrapped_witness :
  replace_double_star PlywoodSimple.strong_of 0
                      (lit "a " ++ lit "**" ++ lit "b c" ++ lit "**" ++ lit " d") =
  lit "a " ++ lit "<strong>" ++ lit "b c" ++ lit "</strong>"
      ++ replace_double_star PlywoodSimple.strong_of 0 (lit " d").
Proof.
  apply (strong_span_wrapped (lit "a ") (lit "b c") (lit " d")).
  - reflexivity.
  - discriminate.
  - reflexivity.
Defined.

(** X13: the statements of [formatDescriptionToHtml] after the call of
    the escaping function are [format_steps], and whatever text they are
    given, they return one with no carriage return and no line feed. *)
Theorem format_steps_no_line_end (safe : jstring) :
  (forall raw : jsval,
      PlywoodSimple.formatDescriptionToHtml raw =
      if negb (truthy raw) && strict_ne_zero raw then Normal []
      else s <- PlywoodSimple.call "escapeHtml" raw ;; Normal (format_steps s)) /\
  forallb (fun c => negb (N.eqb c CR || N.eqb c LF)) (format_steps safe) = true.
Proof.
  split; [reflexivity|].
  apply forallb_forall. intros x Hx. unfold format_steps in Hx.
  apply negb_true_iff, orb_false_iff.
  apply In_replace_char in Hx. destruct Hx as [[Hx Hlf]|Hx].
  - apply In_replace_char in Hx. destruct Hx as [[Hx Hcr]|Hx].
    + split; now apply N.eqb_neq.
    + destruct Hx as [<-|[]]. now elim Hlf.
  - simpl in Hx.
    repeat (destruct Hx as [<-|Hx]; [split; reflexivity|]). destruct Hx.
Qed.

(** ** The address of the sheet *)

Section Url.

Lemma includes_char (c : char) (s : jstring) :
  includes s [c] = true <-> In c s.
Proof.
  induction s as [|y s IH]; simpl.
  - split; [discriminate | tauto].
  - destruct (N.eqb_spec c y) as [->|Hne].
    + split; [now left | reflexivity].
    + rewrite IH. split; [now right | intros [H|H]; congruence].
Qed.

Lemma uint_digits_are_digits (u : Decimal.uint) (x : char) :
  In x (uint_digits u) -> is_digit x = true.
Proof.
  induction u; simpl; try tauto; intros [<-|H]; auto.
Qed.

Lemma count_occ_digits (n : N) :
  count_occ N.eq_dec (number_to_string n) QMARK = 0.
Proof.
  apply count_occ_not_In. intro H.
  apply uint_digits_are_digits in H. discriminate.
Qed.

Lemma strip_prefix_spec (p s r : jstring) :
  strip_prefix p s = Some r <-> s = p ++ r.
Proof.
  revert s. induction p as [|x p IH]; intros s; simpl.
  - split; intro H; [now inversion H | now subst].
  - destruct s as [|y s]; [split; discriminate|].
    destruct (N.eqb_spec x y) as [->|Hne].
    + rewrite IH. split; intro H; [now subst | now inversion H].
    + split; [discriminate | intro H; inversion H; congruence].
Qed.

(** [includes] finds a substring. *)
Lemma includes_spec (s sub : jstring) :
  includes s sub = true <-> exists a b, s = a ++ sub ++ b.
Proof.
  induction s as [|y s IH].
  - simpl. destruct (strip_prefix sub []) as [r|] eqn:E.
    + apply strip_prefix_spec in E. split; [|reflexivity].
      intros _. exists [], r. exact E.
    + split; [discriminate|]. intros [a [b H]].
      destruct a; [|discriminate]. simpl in H.
      apply strip_prefix_spec in H. congruence.
  - change (includes (y :: s) sub)
      with (match strip_prefix sub (y :: s) with
            | Some _ => true
            | None => includes s sub
            end).
    destruct (strip_prefix sub (y :: s)) as [r|] eqn:E.
    + apply strip_prefix_spec in E. split; [|reflexivity].
      intros _. exists [], r. exact E.
    + rewrite IH. split.
      * intros [a [b H]]. exists (y :: a), b. simpl. now rewrite H.
      * intros [a [b H]]. destruct a as [|x a].
        -- simpl in H. apply strip_prefix_spec in H. congruence.
        -- inversion H. now exists a, b.
Qed.

End Url.

(** X14: [fetchCsv] requests nothing and reports the configuration error
    exactly when [CSV_URL] is empty or contains [REPLACE_WITH]. When it
    does request an address, with a time below 10^21, that address has as
    many question marks as [CSV_URL], or one when [CSV_URL] has none, and
    so carries the time as a query parameter. *)
Theorem fetchCsv_url_query (CSV_URL : jstring) (now : N) :
  ((exists message, PlywoodSimple.fetchCsv_start CSV_URL now = PlywoodSimple.SetError message)
   <-> CSV_URL = [] \/ exists a b, CSV_URL = a ++ lit "REPLACE_WITH" ++ b) /\
  (forall url : jstring,
      (now < 10 ^ 21)%N ->
      PlywoodSimple.fetchCsv_start CSV_URL now = PlywoodSimple.Fetch url ->
      count_occ N.eq_dec url QMARK = Nat.max 1 (count_occ N.eq_dec CSV_URL QMARK) /\
      exists tail, url = CSV_URL ++ tail /\
                   skipn 4 tail = number_to_string now).
Proof.
  unfold PlywoodSimple.fetchCsv_start. split.
  - rewrite <- includes_spec.
    destruct CSV_URL as [|c u]; cbn [truthy negb orb].
    + split; [intros _; now left | intros _; eexists; reflexivity].
    + destruct (includes (c :: u) (lit "REPLACE_WITH")).
      * split; [intros _; now right | intros _; eexists; reflexivity].
      * split; [intros [m H]; discriminate H | intros [H|H]; discriminate H].
  - intros url _.
    destruct (negb (truthy (VString CSV_URL))
              || includes CSV_URL (lit "REPLACE_WITH")); [discriminate|].
    intro H. inversion H; subst url; clear H.
    change (lit "?") with [QMARK].
    destruct (includes CSV_URL [QMARK]) eqn:E.
    + split; [|eexists; split; reflexivity].
      apply includes_char in E.
      rewrite count_occ_app. simpl. rewrite count_occ_digits.
      apply (count_occ_In N.eq_dec) in E. unfold jstring, char in *.
      destruct (count_occ N.eq_dec CSV_URL QMARK); lia.
    + split; [|eexists; split; reflexivity].
      assert (Hnot : ~ In QMARK CSV_URL).
      { intro Hin. apply includes_char in Hin. congruence. }
      rewrite count_occ_app. simpl. rewrite count_occ_digits.
      apply (count_occ_not_In N.eq_dec) in Hnot. unfold jstring, char in *.
      rewrite Hnot. reflexivity.
Qed.

Lemma fetchCsv_url_query_witness :
  count_occ N.eq_dec (lit "https://x.test/pub?gid=0&cb=1700000000000") QMARK =
    Nat.max 1 (count_occ N.eq_dec (lit "https://x.test/pub?gid=0") QMARK) /\
  exists tail,
    lit "https://x.test/pub?gid=0&cb=1700000000000" =
      lit "https://x.test/pub?gid=0" ++ tail /\
    skipn 4 tail = number_to_string 1700000000000.
Proof.
  apply (proj2 (fetchCsv_url_query (lit "https://x.test/pub?gid=0")
                                   1700000000000)).
  - reflexivity.
  - reflexivity.
Defined.

Lemma visible_column_selects_witness :
  exists recs,
    PlywoodSimple.parseCSV ex_visible_csv = Some recs /\
    PlywoodSimple.visible recs =
      [ [(lit "id", lit "1"); (lit "visible", lit "true")];
        [(lit "id", lit "3"); (lit "visible", [])] ].
Proof.
  apply (visible_column_selects ex_visible_csv [lit "id"; lit "visible"]
           [[lit "1"; lit " true"]; [lit "2"; lit "no"]; [lit "3"]] 1).
  - reflexivity.
  - reflexivity.
  - intros [|[|j']] Hlt; try lia; simpl; destruct j'; discriminate.
Defined.

(** ** Whitespace around cells *)

Section Whitespace.

Lemma trim_start_id (s : jstring) :
  (forall c, hd_error s = Some c -> is_trimmable c = false) ->
  trim_start s = s.
Proof.
  destruct s as [|c s]; [reflexivity|]. intro H. simpl.
  now rewrite (H c eq_refl).
Qed.

Lemma trim_of_trimmed (s : jstring) : trimmed s -> trim s = s.
Proof.
  intros [Hhd Hlast]. unfold trim, trim_end.
  rewrite (trim_start_id s Hhd), (trim_start_id (rev s) Hlast).
  apply rev_involutive.
Qed.

Lemma trim_idempotent (s : jstring) : trim (trim s) = trim s.
Proof. apply trim_of_trimmed, trim_trimmed. Qed.

Lemma cell_map_trim (r : list jstring) (j : nat) :
  cell (map trim r) j = cell r j.
Proof.
  unfold cell. rewrite nth_error_map.
  destruct (nth_error r j); simpl; [apply trim_idempotent | reflexivity].
Qed.

Lemma make_record_map_trim (header r : list jstring) :
  make_record header (map trim r) = make_record header r.
Proof.
  rewrite !make_record_assign. unfold cells. f_equal. f_equal.
  apply map_ext. intro j. apply cell_map_trim.
Qed.

Lemma records_map_trim (rs : list (list jstring)) :
  PlywoodSimple.records (map (map trim) rs) = PlywoodSimple.records rs.
Proof.
  destruct rs as [|row0 data]; [reflexivity|].
  change (PlywoodSimple.records (map (map trim) (row0 :: data)))
    with (map (fun r => make_record (map trim (map trim row0)) r)
              (map (map trim) data)).
  replace (map trim (map trim row0)) with (map trim row0)
    by (rewrite map_map; apply map_ext; intro h; now rewrite trim_idempotent).
  rewrite map_map. apply map_ext. intro r. apply make_record_map_trim.
Qed.

End Whitespace.

(** X15: the records depend on the rows only through their trimmed
    cells: two written tables whose fields agree once trimmed decode to
    the same records, whatever whitespace surrounds the fields and
    however each of them is quoted and terminated. *)
Theorem records_ignore_outer_whitespace (crlf crlf' : bool)
        (t t' : list (list (bool * jstring))) :
  table_ok t = true ->
  table_ok t' = true ->
  map (map (fun qf => trim (snd qf))) t = map (map (fun qf => trim (snd qf))) t' ->
  PlywoodSimple.parseCSV (write_table crlf t) =
  PlywoodSimple.parseCSV (write_table crlf' t').
Proof.
  intros Hok Hok' Heq.
  rewrite !parseCSV_text.
  rewrite (written_table_rows crlf t Hok), (written_table_rows crlf' t' Hok').
  f_equal.
  rewrite <- (records_map_trim (map (map snd) t)).
  rewrite <- (records_map_trim (map (map snd) t')).
  f_equal.
  assert (H : forall u : list (list (bool * jstring)),
             map (map trim) (map (map snd) u) =
             map (map (fun qf => trim (snd qf))) u).
  { intro u. rewrite map_map. apply map_ext. intro r. apply map_map. }
  rewrite !H. exact Heq.
Qed.

Lemma records_ignore_outer_whitespace_witness :
  PlywoodSimple.parseCSV (write_table true ex_table_padded) =
  PlywoodSimple.parseCSV (write_table false ex_table_trimmed).
Proof.
  apply (records_ignore_outer_whitespace true false
           ex_table_padded ex_table_trimmed); reflexivity.
Defined.

(** ** Single asterisks *)

Section SingleAsterisks.

Lemma match_double_star_none (s : jstring) :
  strip_prefix (lit "**") s = None -> match_double_star s = None.
Proof.
  change (lit "**") with [STAR; STAR].
  destruct s as [|a [|b s']]; try (intros _; reflexivity).
  cbn [strip_prefix match_double_star].
  rewrite (N.eqb_sym a STAR), (N.eqb_sym b STAR).
  destruct (N.eqb STAR a); [|intros _; reflexivity].
  destruct (N.eqb STAR b); [discriminate | intros _; reflexivity].
Qed.

Lemma replace_double_star_no_pair (f : jstring -> jstring) (s : jstring) :
  includes s (lit "**") = false -> replace_double_star f 0 s = s.
Proof.
  induction s as [|c s IH]; intro H; [reflexivity|].
  change (includes (c :: s) (lit "**"))
    with (match strip_prefix (lit "**") (c :: s) with
          | Some _ => true
          | None => includes s (lit "**")
          end) in H.
  destruct (strip_prefix (lit "**") (c :: s)) eqn:E; [discriminate|].
  change (replace_double_star f 0 (c :: s))
    with (match match_double_star (c :: s) with
          | Some p1 => f p1 ++ replace_double_star f (length p1 + 3) s
          | None => c :: replace_double_star f 0 s
          end).
  rewrite (match_double_star_none _ E), IH by assumption. reflexivity.
Qed.

End SingleAsterisks.

(** X16: a text in which no two asterisks are adjacent is left as it is
    by the first substitution of the formatter and by the second, whose
    pattern is the same: no span between single asterisks is wrapped. *)
Theorem single_asterisks_unchanged (s : jstring) :
  includes s (lit "**") = false ->
  replace_double_star PlywoodSimple.strong_of 0 s = s /\
  replace_double_star PlywoodSimple.em_of 0 s = s.
Proof.
  intro H. split; now apply replace_double_star_no_pair.
Qed.

Lemma single_asterisks_unchanged_witness :
  replace_double_star PlywoodSimple.strong_of 0 (lit "an *italic* word") =
    lit "an *italic* word" /\
  replace_double_star PlywoodSimple.em_of 0 (lit "an *italic* word") =
    lit "an *italic* word".
Proof.
  apply (single_asterisks_unchanged (lit "an *italic* word")). reflexivity.
Defined.

(** ** Trimming of names and cells *)

Section Trimming.

Lemma make_record_In_position (header r : list jstring) (k v : jstring) :
  In (k, v) (make_record header r) ->
  exists j, nth_error header j = Some k /\
            v = match nth_error r j with
                | Some c => trim c
                | None => []
                end.
Proof.
  rewrite make_record_assign. intro H.
  apply In_fold_assign in H. destruct H as [[]|H].
  apply In_nth_error in H. destruct H as [j Hj].
  apply nth_error_combine in Hj. destruct Hj as [Hk Hv].
  exists j. split; [exact Hk|].
  rewrite nth_error_cells in Hv by (apply nth_error_Some; congruence).
  inversion Hv. reflexivity.
Qed.

Lemma parseCSV_of_rows (raw : jstring) (row0 : list jstring)
      (data : list (list jstring)) :
  PlywoodSimple.scan_rows (length raw) raw = Some (row0 :: data) ->
  PlywoodSimple.parseCSV raw = Some (map (make_record (map trim row0)) data).
Proof.
  intro H. unfold PlywoodSimple.parseCSV, PlywoodSimple.parseCSV_fuel.
  rewrite H. reflexivity.
Qed.

End Trimming.

(** C5, amended: [parseCSV] applies [trim] to every header name and to
    every cell value, and the content of a quoted field is no exception.
    Every field of the record of a data row has as its name the trimmed
    header cell of some column and as its value the trimmed cell of the
    row in that column (the empty string past the end of the row), so
    neither begins or ends with a character that [trim] strips; and in a
    table written as text, the value is the trimmed text of the field
    whether the field was written bare or between double quotes. *)
Theorem record_entries_trimmed :
  (forall (raw : jstring) (row0 : list jstring) (data : list (list jstring))
          (recs : list obj) (n : nat) (r : list jstring) (rec : obj)
          (k v : jstring),
      PlywoodSimple.scan_rows (length raw) raw = Some (row0 :: data) ->
      PlywoodSimple.parseCSV raw = Some recs ->
      nth_error data n = Some r ->
      nth_error recs n = Some rec ->
      In (k, v) rec ->
      (exists j h, nth_error row0 j = Some h /\ k = trim h /\
                   v = match nth_error r j with
                       | Some c => trim c
                       | None => []
                       end) /\
      trimmed k /\ trimmed v) /\
  (forall (crlf : bool) (h : list (bool * jstring))
          (t : list (list (bool * jstring))) (recs : list obj) (n : nat)
          (r : list (bool * jstring)) (rec : obj) (k v : jstring),
      table_ok (h :: t) = true ->
      PlywoodSimple.parseCSV (write_table crlf (h :: t)) = Some recs ->
      nth_error t n = Some r ->
      nth_error recs n = Some rec ->
      In (k, v) rec ->
      exists j qh, nth_error h j = Some qh /\ k = trim (snd qh) /\
                   v = match nth_error r j with
                       | Some qf => trim (snd qf)
                       | None => []
                       end).
Proof.
  assert (Hrec : forall row0 data recs n r rec k v,
             recs = map (make_record (map trim row0)) data ->
             nth_error data n = Some r ->
             nth_error recs n = Some rec ->
             In (k, v) rec ->
             exists j h, nth_error row0 j = Some h /\ k = trim h /\
                         v = match nth_error r j with
                             | Some c => trim c
                             | None => []
                             end).
  { intros row0 data recs n r rec k v -> Hr Hn Hin.
    rewrite nth_error_map, Hr in Hn. inversion Hn; subst rec; clear Hn.
    apply make_record_In_position in Hin. destruct Hin as [j [Hk Hv]].
    rewrite nth_error_map in Hk.
    destruct (nth_error row0 j) as [h|] eqn:Eh; [|discriminate].
    inversion Hk. exists j, h. repeat split; assumption. }
  split.
  - intros raw row0 data recs n r rec k v Hrows Hparse Hr Hn Hin.
    rewrite (parseCSV_of_rows raw row0 data Hrows) in Hparse.
    inversion Hparse as [E]; clear Hparse.
    destruct (Hrec row0 data recs n r rec k v (eq_sym E) Hr Hn Hin)
      as [j [h [Hh [Hk Hv]]]].
    split; [exists j, h; repeat split; assumption|].
    split; [rewrite Hk; apply trim_trimmed|].
    rewrite Hv. destruct (nth_error r j);
      [apply trim_trimmed | apply trimmed_nil].
  - intros crlf h t recs n r rec k v Hok Hparse Hr Hn Hin.
    rewrite parseCSV_text, (written_table_rows crlf (h :: t) Hok) in Hparse.
    inversion Hparse as [E]; clear Hparse.
    assert (Hr' : nth_error (map (map snd) t) n = Some (map snd r))
      by (rewrite nth_error_map, Hr; reflexivity).
    destruct (Hrec (map snd h) (map (map snd) t) recs n (map snd r) rec k v
                   (eq_sym E) Hr' Hn Hin) as [j [x [Hx [Hk Hv]]]].
    rewrite nth_error_map in Hx.
    destruct (nth_error h j) as [qh|] eqn:Eh; [|discriminate].
    inversion Hx; subst x. exists j, qh. repeat split; try assumption.
    rewrite Hv, nth_error_map. now destruct (nth_error r j).
Qed.

Lemma record_entries_trimmed_witness :
  ((exists j h, nth_error [lit "a"] j = Some h /\ lit "a" = trim h /\
                lit "x" = match nth_error [lit "  x  "] j with
                          | Some c => trim c
                          | None => []
                          end) /\
   trimmed (lit "a") /\ trimmed (lit "x")) /\
  (exists j qh, nth_error [(false, lit " a ")] j = Some qh /\
                lit "a" = trim (snd qh) /\
                lit "x" = match nth_error [(true, lit "  x  ")] j with
                          | Some qf => trim (snd qf)
                          | None => []
                          end).
Proof.
  split.
  - apply (proj1 record_entries_trimmed ex_quoted_spaces
             [lit "a"] [[lit "  x  "]] [[(lit "a", lit "x")]] 0
             [lit "  x  "] [(lit "a", lit "x")] (lit "a") (lit "x"));
      try reflexivity.
    left. reflexivity.
  - apply (proj2 record_entries_trimmed true [(false, lit " a ")]
             [[(true, lit "  x  ")]] [[(lit "a", lit "x")]] 0
             [(true, lit "  x  ")] [(lit "a", lit "x")] (lit "a") (lit "x"));
      try reflexivity.
    left. reflexivity.
Defined.
